(** * Execution queue and dependency engine of todotracker (src/src/crud.py)

    Shallow embedding of the queue helpers, the status/queue lifecycle rules
    of [create_todo] / [update_todo] / [delete_todo], and the dependency
    functions [create_dependency] / [check_dependencies_met].

    The database is a [Store]: the rows of table [todos] and of table
    [todo_dependencies], in rowid order.  Only the columns the queue and
    dependency code reads or writes are modelled.  SQLAlchemy issues an
    UPDATE for a row only when one of its columns really changed; the
    [onupdate=datetime.utcnow] timestamp of such a row is modelled by the
    counter [updated_at], bumped by [flush]. *)

From Stdlib Require Import Arith Lia.
From stdpp Require Import base relations list sorting strings.

(* ------------------------------------------------------------------ *)
(** ** Data model (src/src/db.py) *)

Inductive TodoStatus := PENDING | IN_PROGRESS | COMPLETED | CANCELLED.

Global Instance TodoStatus_eq_dec : EqDecision TodoStatus.
Proof. solve_decision. Defined.

Definition status_eqb (a b : TodoStatus) : bool := bool_decide (a = b).

(** [Todo] row: [id], [status], [queue] (ge=0 in the schemas, so [nat]),
    [parent_id], and the [updated_at] write counter. *)
Record Todo := mkTodo {
  id : nat;
  status : TodoStatus;
  queue : nat;
  parent_id : option nat;
  updated_at : nat
}.

(** [TodoDependency] row: [todo_id] depends on [depends_on_id]. *)
Record TodoDependency := mkDep {
  dep_id : nat;
  todo_id : nat;
  depends_on_id : nat
}.

Record Store := mkStore {
  todos : list Todo;
  todo_dependencies : list TodoDependency
}.

Definition with_queue (t : Todo) (q : nat) : Todo :=
  mkTodo (id t) (status t) q (parent_id t) (updated_at t).

Definition with_status (t : Todo) (st : TodoStatus) : Todo :=
  mkTodo (id t) st (queue t) (parent_id t) (updated_at t).

Definition with_updated_at (t : Todo) (n : nat) : Todo :=
  mkTodo (id t) (status t) (queue t) (parent_id t) n.

Definition option_nat_eqb (a b : option nat) : bool := bool_decide (a = b).

(** Same column values (the timestamp apart). *)
Definition same_row (a b : Todo) : bool :=
  (id a =? id b) && status_eqb (status a) (status b) && (queue a =? queue b)
  && option_nat_eqb (parent_id a) (parent_id b).

(** Flushing the in-memory row [new] over the loaded row [old]: no UPDATE
    (and no new timestamp) when nothing changed. *)
Definition flush (old new : Todo) : Todo :=
  if same_row old new then old else with_updated_at new (S (updated_at old)).

(** [get_todo]: [filter(Todo.id == todo_id).first()]. *)
Definition get_todo (s : Store) (x : nat) : option Todo :=
  List.find (fun t => id t =? x) (todos s).

(** Writing the row with primary key [x]. *)
Definition put_todo (l : list Todo) (x : nat) (f : Todo -> Todo) : list Todo :=
  map (fun t => if id t =? x then f t else t) l.

Definition set_todos (s : Store) (l : list Todo) : Store :=
  mkStore l (todo_dependencies s).

(** [todo.queue = q] followed by a commit. *)
Definition write_queue (s : Store) (x q : nat) : Store :=
  set_todos s (put_todo (todos s) x (fun t => flush t (with_queue t q))).

(* ------------------------------------------------------------------ *)
(** ** Queue rules and helpers (crud.py, lines 32-37 and 303-363) *)

(** [_is_queue_relevant]: [status in {PENDING, IN_PROGRESS}]. *)
Definition is_queue_relevant (st : TodoStatus) : bool :=
  match st with PENDING | IN_PROGRESS => true | _ => false end.

(** The filter of [get_queued_todos] and [get_max_queue]:
    [Todo.queue > 0] and a queue-relevant status. *)
Definition in_queue (t : Todo) : bool :=
  is_queue_relevant (status t) && (0 <? queue t).

(** [order_by(Todo.queue.asc(), Todo.id.asc())]. *)
Definition queue_le (a b : Todo) : Prop :=
  queue a < queue b \/ (queue a = queue b /\ id a <= id b).

Global Instance queue_le_dec : forall a b, Decision (queue_le a b).
Proof. intros a b. unfold queue_le. apply _. Defined.

(** [get_queued_todos(db)] without limit and size bounds. *)
Definition get_queued_todos (s : Store) : list Todo :=
  merge_sort queue_le (List.filter in_queue (todos s)).

(** [get_max_queue]: [max(queue)] over the queued rows, or 0. *)
Definition get_max_queue (s : Store) : nat :=
  foldr Nat.max 0 (map queue (List.filter in_queue (todos s))).

Fixpoint index_of (x : nat) (l : list nat) : option nat :=
  match l with
  | [] => None
  | y :: l' => if x =? y then Some 0 else option_map S (index_of x l')
  end.

(** [normalize_queue]: the row at index [i] of [get_queued_todos] gets
    [expected = i + 1]; [if todo.queue != expected] it is written, every
    other row is left alone.  Rows are identified by their primary key. *)
Definition normalize_row (order : list nat) (t : Todo) : Todo :=
  if in_queue t then
    match index_of (id t) order with
    | Some i => if queue t =? S i then t else flush t (with_queue t (S i))
    | None => t
    end
  else t.

Definition normalize_queue (s : Store) : Store :=
  let order := map id (get_queued_todos s) in
  set_todos s (map (normalize_row order) (todos s)).

(** [add_to_queue]; the returned row is the row [todo_id] of the result. *)
Definition add_to_queue (s : Store) (x : nat) : Store :=
  match get_todo s x with
  | None => s
  | Some t =>
      if negb (is_queue_relevant (status t)) then
        if negb (queue t =? 0) then normalize_queue (write_queue s x 0) else s
      else if 0 <? queue t then s
      else write_queue s x (get_max_queue s + 1)
  end.

(** [remove_from_queue]. *)
Definition remove_from_queue (s : Store) (x : nat) : Store :=
  match get_todo s x with
  | None => s
  | Some t =>
      if queue t =? 0 then s
      else normalize_queue (write_queue s x 0)
  end.

(** [move_queue_up]. [prev] is the first row with [queue == current_pos - 1]
    and a queue-relevant status. *)
Definition move_queue_up (s : Store) (x : nat) : Store :=
  match get_todo s x with
  | None => s
  | Some t =>
      if queue t <=? 1 then s
      else if negb (is_queue_relevant (status t)) then
        if negb (queue t =? 0) then normalize_queue (write_queue s x 0) else s
      else
        let current_pos := queue t in
        match List.find (fun u => (queue u =? current_pos - 1)
                                  && is_queue_relevant (status u)) (todos s) with
        | None => normalize_queue s
        | Some prev =>
            write_queue (write_queue s (id prev) current_pos) x (current_pos - 1)
        end
  end.

(** [move_queue_down]. *)
Definition move_queue_down (s : Store) (x : nat) : Store :=
  match get_todo s x with
  | None => s
  | Some t =>
      if queue t =? 0 then s
      else if negb (is_queue_relevant (status t)) then
        normalize_queue (write_queue s x 0)
      else
        let current_pos := queue t in
        match List.find (fun u => (queue u =? current_pos + 1)
                                  && is_queue_relevant (status u)) (todos s) with
        | None => normalize_queue s
        | Some next_todo =>
            write_queue (write_queue s (id next_todo) current_pos) x (current_pos + 1)
        end
  end.

(* ------------------------------------------------------------------ *)
(** ** Task mutations (crud.py, lines 91-205) *)

(** The fields of [TodoCreate] the queue rules read. *)
Record TodoCreate := mkCreate {
  c_status : TodoStatus;
  c_queue : nat;
  c_parent_id : option nat
}.

(** SQLite rowid allocation: one past the largest id in the table. *)
Definition next_todo_id (s : Store) : nat := S (foldr Nat.max 0 (map id (todos s))).

(** [create_todo]: the inserted row is returned. *)
Definition create_todo (s : Store) (c : TodoCreate) : Store * Todo :=
  let requested_queue := if is_queue_relevant (c_status c) then c_queue c else 0 in
  let row := mkTodo (next_todo_id s) (c_status c) requested_queue (c_parent_id c) 0 in
  (set_todos s (todos s ++ [row]), row).

(** The fields of [TodoUpdate] the queue rules read; [None] is a field left
    unset ([model_dump(exclude_unset=True)]). *)
Record TodoUpdate := mkUpdate {
  u_status : option TodoStatus;
  u_queue : option nat
}.

(** The [setattr] loop over the set fields. *)
Definition apply_update (t : Todo) (u : TodoUpdate) : Todo :=
  let t1 := match u_status u with Some st => with_status t st | None => t end in
  match u_queue u with Some q => with_queue t1 q | None => t1 end.

(** [update_todo]: returns the store and the refreshed row ([None] when the
    id is absent). *)
Definition update_todo (s : Store) (x : nat) (u : TodoUpdate) : Store * option Todo :=
  match get_todo s x with
  | None => (s, None)
  | Some t =>
      let prev_queue := queue t in
      let t1 := apply_update t u in
      let queue_cleared := negb (is_queue_relevant (status t1)) && negb (queue t1 =? 0) in
      let t2 := if queue_cleared then with_queue t1 0 else t1 in
      let s1 := set_todos s (put_todo (todos s) x (fun r => flush r t2)) in
      let s2 := if queue_cleared || ((0 <? prev_queue) && (queue t2 =? 0))
                then normalize_queue s1 else s1 in
      (s2, get_todo s2 x)
  end.

(** The ids removed by [db.delete(db_todo)]: the row and, through the
    [children] backref ([cascade="all, delete"]), its descendants.  The
    fuel is the number of rows, more than the depth of any parent chain. *)
Fixpoint subtree (fuel : nat) (l : list Todo) (x : nat) : list nat :=
  match fuel with
  | 0 => [x]
  | S f => x :: concat (map (fun c => subtree f l (id c))
                          (List.filter (fun c => option_nat_eqb (parent_id c) (Some x)) l))
  end.

Definition mem (x : nat) (l : list nat) : bool := existsb (Nat.eqb x) l.

(** [delete_todo]: deleted rows, and the dependency rows reached by the
    [Todo.dependencies] relationship ([foreign_keys=TodoDependency.todo_id],
    [cascade="all, delete-orphan"]) of every deleted row. *)
Definition delete_todo (s : Store) (x : nat) : Store * bool :=
  match get_todo s x with
  | None => (s, false)
  | Some _ =>
      let gone := subtree (length (todos s)) (todos s) x in
      (mkStore (List.filter (fun t => negb (mem (id t) gone)) (todos s))
               (List.filter (fun d => negb (mem (todo_id d) gone)) (todo_dependencies s)),
       true)
  end.

(* ------------------------------------------------------------------ *)
(** ** Dependencies (crud.py, lines 664-769) *)

(** [db.query(TodoDependency.depends_on_id).filter(TodoDependency.todo_id == current)]. *)
Definition next_deps (E : list TodoDependency) (cur : nat) : list nat :=
  map depends_on_id (List.filter (fun d => todo_id d =? cur) E).

(** The [while stack] loop of [_would_create_cycle].  The Python stack is
    [rev stack] here: [stack.pop()] takes the head and
    [stack.extend(xs)] prepends [rev xs]. *)
Fixpoint cycle_loop (fuel : nat) (E : list TodoDependency) (target : nat)
    (visited stack : list nat) : bool :=
  match fuel with
  | 0 => false
  | S f =>
      match stack with
      | [] => false
      | current :: rest =>
          if current =? target then true
          else if mem current visited then cycle_loop f E target visited rest
          else cycle_loop f E target (current :: visited) (rev (next_deps E current) ++ rest)
      end
  end.

(** [_would_create_cycle(start_id, target_id)].  The loop runs at most
    [1 + length E] iterations (each one decreases the stack length plus the
    number of edges leaving unvisited nodes), so the fuel never runs out. *)
Definition would_create_cycle (E : list TodoDependency) (start target : nat) : bool :=
  cycle_loop (2 + length E) E target [] [start].

(** The two [ValueError]s of [create_dependency]: "A todo cannot depend on
    itself" and "Circular dependency detected: ...". *)
Inductive DepError := SelfDependency | CycleDetected.

Inductive DepResult :=
  | Raised (e : DepError)
  | Returned (r : option TodoDependency).

Definition next_dep_id (E : list TodoDependency) : nat :=
  S (foldr Nat.max 0 (map dep_id E)).

(** [create_dependency(db, todo_id, depends_on_id)]. *)
Definition create_dependency (s : Store) (a b : nat) : Store * DepResult :=
  if a =? b then (s, Raised SelfDependency)
  else
    match get_todo s a, get_todo s b with
    | Some _, Some _ =>
        let E := todo_dependencies s in
        if would_create_cycle E b a then (s, Raised CycleDetected)
        else
          match List.find (fun d => (todo_id d =? a) && (depends_on_id d =? b)) E with
          | Some existing => (s, Returned (Some existing))
          | None =>
              let d := mkDep (next_dep_id E) a b in
              (mkStore (todos s) (E ++ [d]), Returned (Some d))
          end
    | _, _ => (s, Returned None)
    end.

(** [get_dependencies]. *)
Definition get_dependencies (s : Store) (x : nat) : list TodoDependency :=
  List.filter (fun d => todo_id d =? x) (todo_dependencies s).

(** [check_dependencies_met]. *)
Definition check_dependencies_met (s : Store) (x : nat) : bool :=
  match get_dependencies s x with
  | [] => true
  | deps =>
      forallb (fun d => match get_todo s (depends_on_id d) with
                        | Some t => status_eqb (status t) COMPLETED
                        | None => true
                        end) deps
  end.

(* ------------------------------------------------------------------ *)
(** ** Further functions of crud.py and schemas.py *)

(** [get_queued_todos(db, limit)] with no task-size filter
    ([min_size = max_size = None]); [q.limit(n)] keeps the first [n] rows
    of the ordered query (a non-negative [limit]). *)
Definition get_queued_todos_limit (s : Store) (limit : option nat) : list Todo :=
  match limit with
  | None => get_queued_todos s
  | Some n => firstn n (get_queued_todos s)
  end.

(** [get_dependents(db, todo_id)]: the edges pointing at [todo_id]. *)
Definition get_dependents (s : Store) (x : nat) : list TodoDependency :=
  List.filter (fun d => depends_on_id d =? x) (todo_dependencies s).

(** [delete_dependency(db, dependency_id)]: the row found by
    [.filter(TodoDependency.id == dependency_id).first()] is deleted by its
    primary key. *)
Definition delete_dependency (s : Store) (i : nat) : Store * bool :=
  match List.find (fun d => dep_id d =? i) (todo_dependencies s) with
  | None => (s, false)
  | Some _ =>
      (mkStore (todos s) (List.filter (fun d => negb (dep_id d =? i)) (todo_dependencies s)),
       true)
  end.

(** [add_concern(db, parent_id, title, description)]: the title rule. *)
Definition concern_title (title : string) : string :=
  if String.prefix "[Concern]" title then title else "[Concern] " +:+ title.

(** The outcome of [add_concern]: [None] for a missing parent, the
    [ValidationError] raised by [TodoCreate(...)], or the inserted row
    together with the title it was created with. *)
Inductive ConcernResult :=
| ConcernNoParent
| ConcernValidationError
| ConcernAdded (row : Todo) (title : string).

(** [TodoBase.title]: [Field(..., min_length=1, max_length=500)]; a title
    is a sequence of characters and [String.length] is its [len]. *)
Definition title_valid (title : string) : bool :=
  (1 <=? String.length title) && (String.length title <=? 500).

(** [add_concern]: the [TodoCreate] it builds has [title=concern_title],
    [status=PENDING], [parent_id=parent_id] and the schema default
    [queue=0]; building it validates the title, and a rejected title raises
    before [create_todo] writes anything. *)
Definition add_concern (s : Store) (p : nat) (title : string) : Store * ConcernResult :=
  match get_todo s p with
  | None => (s, ConcernNoParent)
  | Some _ =>
      let ct := concern_title title in
      if title_valid ct then
        let '(s', row) := create_todo s (mkCreate PENDING 0 (Some p)) in (s', ConcernAdded row ct)
      else (s, ConcernValidationError)
  end.

(** Table [todo_relations] (db.py, [TodoRelation]), in rowid order. *)
Record TodoRelation := mkRel {
  rel_id : nat;
  rel_todo_id : nat;
  relates_to_id : nat
}.

(** [get_relates_to_ids(db, todo_id)]. *)
Definition get_relates_to_ids (R : list TodoRelation) (x : nat) : list nat :=
  map relates_to_id (List.filter (fun r => rel_todo_id r =? x) R).

Definition next_rel_id (R : list TodoRelation) : nat := S (foldr Nat.max 0 (map rel_id R)).

(** The [for rid in relates_to_ids] loop of [set_relates_to_ids], with its
    [seen] set (the ids are already [int]s, so [int(rid)] never raises). *)
Fixpoint add_relations (x : nat) (seen : list nat) (R : list TodoRelation)
    (ids : list nat) : list TodoRelation :=
  match ids with
  | [] => R
  | rid :: rest =>
      if rid =? x then add_relations x seen R rest
      else if mem rid seen then add_relations x seen R rest
      else add_relations x (rid :: seen) (R ++ [mkRel (next_rel_id R) x rid]) rest
  end.

(** [set_relates_to_ids(db, todo_id, relates_to_ids)]; [None] is
    [relates_to_ids or []]. *)
Definition set_relates_to_ids (R : list TodoRelation) (x : nat) (ids : option (list nat))
    : list TodoRelation :=
  add_relations x [] (List.filter (fun r => negb (rel_todo_id r =? x)) R)
    (match ids with Some l => l | None => [] end).

(** The value a [mode="before"] field validator receives. *)
Inductive PyValue := PyNone | PyStr (v : string) | PyOther.

(** A validator's outcome: the stored value, or the [ValueError]. *)
Inductive Checked := Accepted (v : option string) | Rejected.

(** [str.isspace] on the code points 0-255 a [string] holds: tab,
    newline, vertical tab, form feed, carriage return, the separators
    0x1c-0x1f, space, NEL (0x85) and no-break space (0xa0). *)
Definition is_space (c : Ascii.ascii) : bool :=
  let n := Ascii.nat_of_ascii c in
  ((9 <=? n) && (n <=? 13)) || ((28 <=? n) && (n <=? 32)) || (n =? 133) || (n =? 160).

Fixpoint drop_space (l : list Ascii.ascii) : list Ascii.ascii :=
  match l with
  | [] => []
  | c :: r => if is_space c then drop_space r else l
  end.

(** [str.strip()]. *)
Definition strip (v : string) : string :=
  String.string_of_list_ascii
    (rev (drop_space (rev (drop_space (String.list_ascii_of_string v))))).

(** [str.upper()] on ASCII letters; the model leaves every other
    character as it is, so it follows Python on ASCII text. *)
Definition upper_char (c : Ascii.ascii) : Ascii.ascii :=
  let n := Ascii.nat_of_ascii c in
  if (97 <=? n) && (n <=? 122) then Ascii.ascii_of_nat (n - 32) else c.

Definition upper (v : string) : string :=
  String.string_of_list_ascii (map upper_char (String.list_ascii_of_string v)).

(** [TodoBase._normalize_priority_class] (the same body serves [TodoUpdate]
    and [TodoSearch]). *)
Definition normalize_priority_class (v : PyValue) : Checked :=
  match v with
  | PyNone => Accepted None
  | PyStr v =>
      let s := upper (strip v) in
      if String.eqb s "" then Accepted None
      else if existsb (String.eqb s) ["A"; "B"; "C"; "D"; "E"] then Accepted (Some s)
      else Rejected
  | PyOther => Rejected
  end.

(** [_normalize_note_category], the validator of [NoteCreate.category] and
    [NoteUpdate.category]. *)
Definition normalize_note_category (v : PyValue) : Checked :=
  match v with
  | PyNone => Accepted None
  | PyStr v => let s := strip v in if String.eqb s "" then Accepted None else Accepted (Some s)
  | PyOther => Rejected
  end.

(** The filters of [TodoSearch] over the modelled columns; the text, category,
    topic, tag, task-size and priority filters are left unset. *)
Record TodoSearch := mkSearch {
  s_status : option TodoStatus;
  s_parent_id : option nat;
  s_in_queue : option bool;
  s_queue : option nat;
  s_dependency_status : option string
}.

(** The [unmet_dep_exists] subquery of [search_todos]: an edge of [t] whose
    [depends_on_id] joins a row that is not completed. *)
Definition unmet_dep_exists (s : Store) (t : Todo) : bool :=
  existsb (fun d => (todo_id d =? id t) &&
                    existsb (fun u => (id u =? depends_on_id d)
                                      && negb (status_eqb (status u) COMPLETED)) (todos s))
          (todo_dependencies s).

(** [search_todos(db, search)]; [Todo.parent_id == v] is false on a NULL
    parent, and a [dependency_status] other than "ready" or "blocked" filters
    nothing. *)
Definition search_todos (s : Store) (q : TodoSearch) : list Todo :=
  List.filter (fun t =>
    match s_status q with Some st => status_eqb (status t) st | None => true end &&
    match s_parent_id q with Some p => option_nat_eqb (parent_id t) (Some p) | None => true end &&
    match s_in_queue q with
    | Some true => in_queue t
    | Some false => queue t =? 0
    | None => true
    end &&
    match s_queue q with
    | Some v => (queue t =? v) && is_queue_relevant (status t)
    | None => true
    end &&
    match s_dependency_status q with
    | Some ds =>
        if String.eqb ds "ready" then negb (unmet_dep_exists s t)
        else if String.eqb ds "blocked" then unmet_dep_exists s t
        else true
    | None => true
    end) (todos s).

(** [get_todos(db, skip, limit)]: [offset(skip).limit(limit)] over the
    rows in table order (non-negative [skip] and [limit]). *)
Definition get_todos (s : Store) (skip limit : nat) : list Todo :=
  firstn limit (skipn skip (todos s)).

(** [NoteType] (db.py). *)
Inductive NoteType := ATTACHED | PROJECT.

(** The modelled columns of table [notes]: [id], [todo_id], [note_type],
    [category] ([None] is a Python [None] held before the commit). *)
Record Note := mkNote {
  note_id : nat;
  note_todo_id : option nat;
  note_type : NoteType;
  category : option string
}.

(** [NoteCreate] after its validators. *)
Record NoteCreate := mkNoteCreate {
  nc_todo_id : option nat;
  nc_category : option string
}.

(** [NoteUpdate] after its validators; the outer [None] is a field left
    unset ([model_dump(exclude_unset=True)]). *)
Record NoteUpdate := mkNoteUpdate {
  nu_todo_id : option (option nat);
  nu_category : option (option string)
}.

(** [(v or "")]. *)
Definition or_empty (v : option string) : string :=
  match v with Some c => c | None => "" end.

Definition type_of_todo_id (t : option nat) : NoteType :=
  match t with Some _ => ATTACHED | None => PROJECT end.

Definition next_note_id (ns : list Note) : nat := S (foldr Nat.max 0 (map note_id ns)).

(** [create_note(db, note)]: the inserted row is returned. *)
Definition create_note (ns : list Note) (c : NoteCreate) : list Note * Note :=
  let cat := let s := strip (or_empty (nc_category c)) in
             if String.eqb s "" then "general" else s in
  let n := mkNote (next_note_id ns) (nc_todo_id c) (type_of_todo_id (nc_todo_id c)) (Some cat) in
  (ns ++ [n], n).

(** [update_note(db, note_id, note_update)]. *)
Definition update_note (ns : list Note) (i : nat) (u : NoteUpdate) : list Note * option Note :=
  match List.find (fun n => note_id n =? i) ns with
  | None => (ns, None)
  | Some n =>
      let tid := match nu_todo_id u with Some v => v | None => note_todo_id n end in
      let cat := match nu_category u with Some v => v | None => category n end in
      let cat' := if String.eqb (strip (or_empty cat)) "" then Some "general" else cat in
      let n' := mkNote (note_id n) tid (type_of_todo_id tid) cat' in
      (map (fun m => if note_id m =? i then n' else m) ns, Some n')
  end.

(* ------------------------------------------------------------------ *)
(** ** Small test stores *)

Definition mk (i : nat) (st : TodoStatus) (q : nat) : Todo := mkTodo i st q None 0.

Definition abc : Store :=
  mkStore [mk 1 PENDING 1; mk 2 PENDING 2; mk 3 PENDING 3] [].

Example move_up_c :
  map queue (todos (move_queue_up abc 3)) = [1; 3; 2].
Proof. reflexivity. Qed.

Example normalize_gap :
  map queue (todos (normalize_queue
    (mkStore [mk 1 PENDING 4; mk 2 COMPLETED 2; mk 3 IN_PROGRESS 4; mk 4 PENDING 0] [])))
  = [1; 2; 2; 0].
Proof. reflexivity. Qed.

Example complete_b :
  map queue (todos (fst (update_todo abc 2 (mkUpdate (Some COMPLETED) None)))) = [1; 0; 2].
Proof. reflexivity. Qed.

Example cycle_xy :
  let s := mkStore [mk 1 PENDING 0; mk 2 PENDING 0] [] in
  snd (create_dependency (fst (create_dependency s 1 2)) 2 1) = Raised CycleDetected.
Proof. reflexivity. Qed.

(* ------------------------------------------------------------------ *)
(** ** Invariants used below *)

(** Primary-key uniqueness of [todos]. *)
Definition ids_unique (s : Store) : Prop := NoDup (map id (todos s)).

(** The queue values of the rows selected by [get_queued_todos]. *)
Definition qvals (l : list Todo) : list nat := map queue (List.filter in_queue l).

(** The queued, status-relevant rows hold exactly [1..N], once each. *)
Definition contiguous (s : Store) : Prop :=
  qvals (todos s) ≡ₚ seq 1 (length (qvals (todos s))).

(** Rows with a status outside the queue hold [queue = 0]. *)
Definition inactive_unqueued (s : Store) : Prop :=
  Forall (fun t => is_queue_relevant (status t) = false -> queue t = 0) (todos s).

(* ------------------------------------------------------------------ *)
(** ** Generic list facts *)

Section ListFacts.
Context {A : Type}.

Lemma perm_filterb (f : A -> bool) (l1 l2 : list A) :
  l1 ≡ₚ l2 -> List.filter f l1 ≡ₚ List.filter f l2.
Proof.
  induction 1 as [|x l1 l2 _ IH|x y l|l1 l2 l3 _ IH1 _ IH2]; simpl.
  - done.
  - destruct (f x); [by constructor|done].
  - destruct (f x), (f y); try constructor; reflexivity.
  - by etrans.
Qed.

Lemma filter_map_comm (f : A -> bool) (g : A -> A) (l : list A) :
  (forall x, In x l -> f (g x) = f x) ->
  List.filter f (map g l) = map g (List.filter f l).
Proof.
  induction l as [|a l IH]; intros H; simpl; [done|].
  rewrite (H a (or_introl eq_refl)).
  destruct (f a); simpl; rewrite IH; auto with datatypes.
Qed.

Lemma map_fmap {B} (f : A -> B) (l : list A) : map f l = f <$> l.
Proof. induction l; simpl; [done|]. by f_equal. Qed.
End ListFacts.

Lemma index_of_lookup (l : list nat) i x :
  NoDup l -> l !! i = Some x -> index_of x l = Some i.
Proof.
  revert i. induction l as [|y l IH]; intros i Hnd Hl; [done|].
  apply NoDup_cons in Hnd as [Hy Hnd]. simpl.
  destruct i as [|i]; simpl in Hl.
  - injection Hl as ->. by rewrite Nat.eqb_refl.
  - destruct (Nat.eqb_spec x y) as [->|Hne].
    + exfalso. apply Hy. by eapply list_elem_of_lookup_2.
    + by rewrite (IH i).
Qed.

Lemma index_of_Some (l : list nat) x i :
  index_of x l = Some i -> l !! i = Some x.
Proof.
  revert i. induction l as [|y l IH]; intros i H; simpl in H; [done|].
  destruct (Nat.eqb_spec x y) as [->|Hne].
  - by injection H as <-.
  - destruct (index_of x l) as [j|] eqn:E; simpl in H; [|done].
    injection H as <-. simpl. by apply IH.
Qed.

Lemma index_of_In (l : list nat) x :
  In x l -> exists i, index_of x l = Some i.
Proof.
  induction l as [|y l IH]; intros H; [done|]. simpl.
  destruct (Nat.eqb_spec x y); [eauto|].
  destruct H as [->|H]; [done|].
  destruct (IH H) as [i ->]. eauto.
Qed.

(* ------------------------------------------------------------------ *)
(** ** Rows and keys *)

Lemma flush_fields o n :
  id (flush o n) = id n /\ status (flush o n) = status n /\
  queue (flush o n) = queue n /\ parent_id (flush o n) = parent_id n.
Proof.
  unfold flush, same_row, status_eqb, option_nat_eqb.
  destruct (_ && _) eqn:E; [|done].
  apply andb_true_iff in E as [E E4]. apply andb_true_iff in E as [E E3].
  apply andb_true_iff in E as [E1 E2].
  apply Nat.eqb_eq in E1. apply bool_decide_eq_true in E2.
  apply Nat.eqb_eq in E3. apply bool_decide_eq_true in E4. done.
Qed.

Lemma NoDup_ids_filter (f : Todo -> bool) (l : list Todo) :
  NoDup (map id l) -> NoDup (map id (List.filter f l)).
Proof.
  induction l as [|a l IH]; intros H; simpl; [constructor|].
  inversion H as [|? ? Hn Hnd]; subst.
  destruct (f a); simpl; [|auto].
  constructor; [|auto].
  intros Hin. apply Hn. apply list_elem_of_In in Hin.
  apply list_elem_of_In. apply in_map_iff in Hin as (t & <- & Ht).
  apply filter_In in Ht as [Ht _]. by apply in_map.
Qed.

Lemma ids_inj (l : list Todo) a b :
  NoDup (map id l) -> In a l -> In b l -> id a = id b -> a = b.
Proof.
  induction l as [|c l IH]; intros Hnd Ha Hb Hab; [done|].
  inversion Hnd as [|? ? Hn Hnd']; subst.
  destruct Ha as [<-|Ha], Hb as [<-|Hb]; auto.
  - exfalso. apply Hn. apply list_elem_of_In. rewrite Hab. by apply in_map.
  - exfalso. apply Hn. apply list_elem_of_In. rewrite <- Hab. by apply in_map.
Qed.

(* ------------------------------------------------------------------ *)
(** ** [normalize_queue] *)

Global Instance queue_le_trans : Transitive queue_le.
Proof. intros a b c. unfold queue_le. lia. Qed.

Global Instance queue_le_total : Total queue_le.
Proof. intros a b. unfold queue_le. lia. Qed.

Lemma queued_perm s : get_queued_todos s ≡ₚ List.filter in_queue (todos s).
Proof. apply merge_sort_Permutation. Qed.

Lemma queued_NoDup s : ids_unique s -> NoDup (map id (get_queued_todos s)).
Proof.
  intros H. rewrite (queued_perm s). by apply NoDup_ids_filter.
Qed.

Lemma normalize_row_fields order t :
  id (normalize_row order t) = id t /\ status (normalize_row order t) = status t /\
  parent_id (normalize_row order t) = parent_id t.
Proof.
  unfold normalize_row. destruct (in_queue t); [|done].
  destruct (index_of _ _) as [i|]; [|done].
  destruct (queue t =? S i); [done|].
  pose proof (flush_fields t (with_queue t (S i))) as (H1 & H2 & _ & H4).
  by rewrite H1, H2, H4.
Qed.

Lemma normalize_row_out order t :
  in_queue t = false -> normalize_row order t = t.
Proof. unfold normalize_row. by intros ->. Qed.

Lemma normalize_row_at order t i :
  in_queue t = true -> index_of (id t) order = Some i ->
  queue (normalize_row order t) = S i.
Proof.
  unfold normalize_row. intros -> ->.
  destruct (Nat.eqb_spec (queue t) (S i)); [done|].
  apply flush_fields.
Qed.

Lemma normalize_row_unwritten order t :
  queue (normalize_row order t) = queue t -> normalize_row order t = t.
Proof.
  unfold normalize_row. destruct (in_queue t); [|done].
  destruct (index_of _ _) as [i|]; [|done].
  destruct (Nat.eqb_spec (queue t) (S i)); [done|].
  rewrite (proj1 (proj2 (proj2 (flush_fields _ _)))). simpl. lia.
Qed.

Lemma normalize_ids s : map id (todos (normalize_queue s)) = map id (todos s).
Proof.
  simpl. rewrite map_map. apply map_ext. intros t. apply normalize_row_fields.
Qed.

Lemma normalize_unique s : ids_unique s -> ids_unique (normalize_queue s).
Proof. unfold ids_unique. by rewrite normalize_ids. Qed.

(** Every queued row gets a position in [get_queued_todos]. *)
Lemma queued_index s t :
  In t (todos s) -> in_queue t = true ->
  exists i, index_of (id t) (map id (get_queued_todos s)) = Some i.
Proof.
  intros Hin Hq. apply index_of_In. apply in_map.
  apply (Permutation_in _ (Permutation_sym (queued_perm s))).
  by apply filter_In.
Qed.

Lemma normalize_contiguous s : ids_unique s -> contiguous (normalize_queue s).
Proof.
  intros Hu. unfold contiguous, qvals. simpl.
  set (L := get_queued_todos s). set (ord := map id L).
  rewrite filter_map_comm.
  2:{ intros t Ht. destruct (in_queue t) eqn:Hq.
      - destruct (queued_index s t Ht Hq) as [i Hi].
        unfold in_queue. rewrite (proj1 (proj2 (normalize_row_fields ord t))).
        rewrite (normalize_row_at ord t i Hq Hi).
        unfold in_queue in Hq. apply andb_true_iff in Hq as [-> _]. done.
      - by rewrite normalize_row_out. }
  rewrite map_map.
  assert (Hperm : map (fun t => queue (normalize_row ord t)) (List.filter in_queue (todos s))
                  ≡ₚ map (fun t => queue (normalize_row ord t)) L).
  { apply Permutation_map. symmetry. apply queued_perm. }
  assert (HL : map (fun t => queue (normalize_row ord t)) L = seq 1 (length L)).
  { apply list_eq. intros i. rewrite map_fmap, list_lookup_fmap.
    destruct (L !! i) as [t|] eqn:Ht; simpl.
    - assert (Hq : in_queue t = true).
      { apply list_elem_of_lookup_2 in Ht.
        apply list_elem_of_In in Ht.
        apply (Permutation_in _ (queued_perm s)) in Ht.
        apply filter_In in Ht as [_ Ht]. exact Ht. }
      assert (Hi : index_of (id t) ord = Some i).
      { apply index_of_lookup; [apply queued_NoDup, Hu|].
        unfold ord. by rewrite map_fmap, list_lookup_fmap, Ht. }
      rewrite (normalize_row_at ord t i Hq Hi).
      symmetry. apply lookup_seq. split; [lia|]. by apply lookup_lt_Some in Ht.
    - symmetry. apply lookup_seq_ge. by apply lookup_ge_None in Ht. }
  rewrite (Permutation_length Hperm), Hperm, HL, length_seq. done.
Qed.

Lemma seq_sorted a n : Sorted le (seq a n).
Proof.
  revert a. induction n as [|n IH]; intros a; simpl; constructor; [apply IH|].
  destruct n; simpl; constructor. lia.
Qed.

(** On a contiguous store [normalize_queue] writes nothing. *)
Lemma normalize_fixed s : ids_unique s -> contiguous s -> normalize_queue s = s.
Proof.
  intros Hu Hc. destruct s as [l E]. unfold normalize_queue, set_todos. simpl. f_equal.
  unfold ids_unique in Hu; simpl in Hu.
  set (L := get_queued_todos (mkStore l E)). set (ord := map id L).
  assert (HqL : map queue L = seq 1 (length (qvals l))).
  { rewrite map_fmap. apply (Sorted_unique le).
    - apply (Sorted_fmap queue queue_le); [intros a b; unfold queue_le; lia|].
      apply Sorted_merge_sort. exact queue_le_total.
    - apply seq_sorted.
    - rewrite <- map_fmap. etrans; [|exact Hc]. unfold qvals.
      apply Permutation_map, (queued_perm (mkStore l E)). }
  rewrite <- (map_id l) at 2. apply map_ext_in. intros t Ht.
  destruct (in_queue t) eqn:Hq; [|by apply normalize_row_out].
  destruct (queued_index (mkStore l E) t Ht Hq) as [i Hi].
  fold L ord in Hi.
  pose proof (index_of_Some _ _ _ Hi) as Hord.
  unfold ord in Hord. rewrite map_fmap, list_lookup_fmap in Hord.
  destruct (L !! i) as [t'|] eqn:Ht'; simpl in Hord; [|done].
  injection Hord as Hid.
  assert (Ht'l : In t' l).
  { apply list_elem_of_lookup_2, list_elem_of_In in Ht'.
    apply (Permutation_in _ (queued_perm (mkStore l E))) in Ht'.
    apply filter_In in Ht' as [Ht' _]. exact Ht'. }
  pose proof (ids_inj l t' t Hu Ht'l Ht Hid) as ->.
  assert (Hqt : queue t = S i).
  { assert (H1 : map queue L !! i = Some (queue t)).
    { by rewrite map_fmap, list_lookup_fmap, Ht'. }
    rewrite HqL in H1. apply lookup_seq in H1. lia. }
  apply normalize_row_unwritten. by rewrite (normalize_row_at ord t i Hq Hi).
Qed.

Lemma normalize_idem s :
  ids_unique s -> normalize_queue (normalize_queue s) = normalize_queue s.
Proof.
  intros Hu. apply normalize_fixed; [by apply normalize_unique|].
  by apply normalize_contiguous.
Qed.

Lemma normalize_inactive s : inactive_unqueued s -> inactive_unqueued (normalize_queue s).
Proof.
  unfold inactive_unqueued. simpl. intros H. apply Forall_map.
  eapply Forall_impl; [exact H|]. simpl. intros t Ht.
  destruct (in_queue t) eqn:Hq.
  - rewrite (proj1 (proj2 (normalize_row_fields _ t))).
    unfold in_queue in Hq. apply andb_true_iff in Hq as [-> _]. done.
  - by rewrite normalize_row_out.
Qed.

(* ------------------------------------------------------------------ *)
(** ** Writing one row *)

Lemma qvals_perm l1 l2 : l1 ≡ₚ l2 -> qvals l1 ≡ₚ qvals l2.
Proof. intros H. unfold qvals. by apply Permutation_map, perm_filterb. Qed.

Lemma qvals_cons t l : qvals (t :: l) = qvals [t] ++ qvals l.
Proof. unfold qvals. simpl. by destruct (in_queue t). Qed.

Lemma find_key (l : list Todo) u :
  NoDup (map id l) -> In u l -> List.find (fun v => id v =? id u) l = Some u.
Proof.
  induction l as [|a l IH]; intros Hnd Hin; [done|].
  inversion Hnd as [|? ? Hn Hnd']; subst. simpl.
  destruct (Nat.eqb_spec (id a) (id u)) as [E|E].
  - f_equal. apply (ids_inj (a :: l)); auto with datatypes.
  - destruct Hin as [<-|Hin]; [done|]. auto.
Qed.

Lemma find_key_spec (l : list Todo) x t :
  List.find (fun v => id v =? x) l = Some t -> In t l /\ id t = x.
Proof.
  intros H. apply find_some in H as [H1 H2]. by apply Nat.eqb_eq in H2.
Qed.

Lemma filter_true {A} (f : A -> bool) (l : list A) :
  (forall u, In u l -> f u = true) -> List.filter f l = l.
Proof.
  induction l as [|a l IH]; intros H; simpl; [done|].
  rewrite (H a (or_introl eq_refl)), IH; auto with datatypes.
Qed.

Lemma key_split (l : list Todo) x t :
  NoDup (map id l) -> List.find (fun v => id v =? x) l = Some t ->
  l ≡ₚ t :: List.filter (fun v => negb (id v =? x)) l.
Proof.
  induction l as [|a l IH]; intros Hnd Hf; [done|].
  inversion Hnd as [|? ? Hn Hnd']; subst. simpl in Hf |- *.
  destruct (Nat.eqb_spec (id a) x) as [<-|Hne]; simpl.
  - injection Hf as <-. rewrite filter_true; [done|].
    intros u Hu. apply negb_true_iff, Nat.eqb_neq. intros E.
    apply Hn, list_elem_of_In. rewrite <- E. by apply in_map.
  - etrans; [apply perm_skip, (IH Hnd' Hf)|]. constructor.
Qed.

Lemma put_split (l : list Todo) x f t :
  NoDup (map id l) -> List.find (fun v => id v =? x) l = Some t ->
  put_todo l x f ≡ₚ f t :: List.filter (fun v => negb (id v =? x)) l.
Proof.
  intros Hnd Hf. unfold put_todo.
  rewrite (key_split l x t Hnd Hf) at 1. simpl.
  destruct (find_key_spec l x t Hf) as [_ ->]. rewrite Nat.eqb_refl.
  constructor. rewrite <- (map_id (List.filter _ l)) at 2.
  apply Permutation_refl'. apply map_ext_in. intros u Hu.
  apply filter_In in Hu as [_ Hu]. apply negb_true_iff in Hu. by rewrite Hu.
Qed.

(** The queue values before and after writing row [x]. *)
Lemma put_qvals (l : list Todo) x f t :
  NoDup (map id l) -> List.find (fun v => id v =? x) l = Some t ->
  exists R, qvals l ≡ₚ qvals [t] ++ R /\ qvals (put_todo l x f) ≡ₚ qvals [f t] ++ R.
Proof.
  intros Hnd Hf. exists (qvals (List.filter (fun v => negb (id v =? x)) l)).
  split.
  - rewrite <- qvals_cons. apply qvals_perm. by apply key_split.
  - rewrite <- qvals_cons. apply qvals_perm. by apply put_split.
Qed.

Lemma put_ids (l : list Todo) x f :
  (forall t, id t = x -> id (f t) = x) -> map id (put_todo l x f) = map id l.
Proof.
  intros H. unfold put_todo. rewrite map_map. apply map_ext. intros t.
  destruct (Nat.eqb_spec (id t) x) as [E|E]; [by rewrite (H t E)|done].
Qed.

Lemma put_forall (P : Todo -> Prop) (l : list Todo) x f :
  Forall P l -> (forall t, In t l -> id t = x -> P (f t)) -> Forall P (put_todo l x f).
Proof.
  intros H Hf. unfold put_todo. apply Forall_map.
  apply Forall_forall. intros t Ht. rewrite Forall_forall in H.
  destruct (Nat.eqb_spec (id t) x).
  - apply Hf; [apply list_elem_of_In, Ht|done].
  - apply H, Ht.
Qed.

Lemma put_other (l : list Todo) x f t :
  In t l -> id t <> x -> In t (put_todo l x f).
Proof.
  intros Ht Hne. unfold put_todo. apply in_map_iff. exists t. split; [|done].
  by destruct (Nat.eqb_spec (id t) x).
Qed.

Lemma write_queue_fields t q :
  id (flush t (with_queue t q)) = id t /\ status (flush t (with_queue t q)) = status t /\
  queue (flush t (with_queue t q)) = q.
Proof. pose proof (flush_fields t (with_queue t q)) as (? & ? & ? & _). done. Qed.

Lemma write_queue_unique s x q : ids_unique s -> ids_unique (write_queue s x q).
Proof.
  unfold ids_unique, write_queue. simpl. rewrite put_ids; [done|].
  intros t <-. apply write_queue_fields.
Qed.

Lemma contiguous_perm s s' :
  qvals (todos s') ≡ₚ qvals (todos s) -> contiguous s -> contiguous s'.
Proof.
  unfold contiguous. intros H Hc. rewrite (Permutation_length H), H. exact Hc.
Qed.

Definition queue_inv (s : Store) : Prop :=
  ids_unique s /\ contiguous s /\ inactive_unqueued s.

Lemma foldr_max_perm (l1 l2 : list nat) :
  l1 ≡ₚ l2 -> foldr Nat.max 0 l1 = foldr Nat.max 0 l2.
Proof. induction 1; simpl; lia. Qed.

Lemma foldr_max_seq a n : foldr Nat.max 0 (seq a n) = match n with 0 => 0 | S _ => a + n - 1 end.
Proof.
  revert a. induction n as [|n IH]; intros a; [done|].
  simpl. rewrite IH. destruct n; lia.
Qed.

Lemma qvals_in v : in_queue v = true -> qvals [v] = [queue v].
Proof. unfold qvals. simpl. by intros ->. Qed.

Lemma qvals_out v : in_queue v = false -> qvals [v] = [].
Proof. unfold qvals. simpl. by intros ->. Qed.

Lemma in_queue_write t q :
  in_queue (flush t (with_queue t q)) = is_queue_relevant (status t) && (0 <? q).
Proof.
  unfold in_queue. pose proof (write_queue_fields t q) as (_ & -> & ->). done.
Qed.

Lemma get_todo_spec s x t :
  get_todo s x = Some t -> In t (todos s) /\ id t = x.
Proof. apply find_key_spec. Qed.

Lemma write_queue_inactive s x q :
  inactive_unqueued s ->
  (forall t, In t (todos s) -> id t = x -> is_queue_relevant (status t) = false -> q = 0) ->
  inactive_unqueued (write_queue s x q).
Proof.
  intros H Hq. unfold inactive_unqueued, write_queue. simpl.
  apply put_forall; [exact H|]. intros t Ht Hx.
  pose proof (write_queue_fields t q) as (_ & -> & ->). eauto.
Qed.

Lemma normalize_inv s :
  ids_unique s -> inactive_unqueued s -> queue_inv (normalize_queue s).
Proof.
  intros Hu Hi. split; [by apply normalize_unique|].
  split; [by apply normalize_contiguous|by apply normalize_inactive].
Qed.

Lemma clear_inv s x : queue_inv s -> queue_inv (normalize_queue (write_queue s x 0)).
Proof.
  intros (Hu & _ & Hi). apply normalize_inv; [by apply write_queue_unique|].
  by apply write_queue_inactive.
Qed.

(** Exchanging the queue values of two queued rows keeps the multiset. *)
Lemma swap_qvals s x t u :
  ids_unique s -> get_todo s x = Some t -> In u (todos s) -> id u <> x ->
  in_queue t = true -> in_queue u = true ->
  qvals (todos (write_queue (write_queue s (id u) (queue t)) x (queue u)))
    ≡ₚ qvals (todos s).
Proof.
  intros Hu Ht Hin Hne Hqt Hqu.
  destruct (get_todo_spec s x t Ht) as [Htin Htx].
  assert (Hrt : is_queue_relevant (status t) = true /\ 0 < queue t).
  { unfold in_queue in Hqt. apply andb_true_iff in Hqt as [? ?].
    split; [done|]. by apply Nat.ltb_lt. }
  assert (Hru : is_queue_relevant (status u) = true /\ 0 < queue u).
  { unfold in_queue in Hqu. apply andb_true_iff in Hqu as [? ?].
    split; [done|]. by apply Nat.ltb_lt. }
  destruct (put_qvals (todos s) (id u) (fun v => flush v (with_queue v (queue t))) u Hu
              (find_key _ _ Hu Hin)) as (R1 & H1 & H1').
  set (s1 := write_queue s (id u) (queue t)).
  assert (Hu1 : ids_unique s1) by (apply write_queue_unique, Hu).
  assert (Ht1 : In t (todos s1)).
  { apply put_other; [done|]. intros E. apply Hne. by rewrite <- E. }
  assert (Hf1 : List.find (fun v => id v =? x) (todos s1) = Some t).
  { rewrite <- Htx. by apply find_key. }
  destruct (put_qvals (todos s1) x (fun v => flush v (with_queue v (queue u))) t Hu1 Hf1)
    as (R2 & H2 & H2').
  rewrite (qvals_in u Hqu) in H1.
  rewrite qvals_in in H1'; [|rewrite in_queue_write; apply andb_true_iff; split;
                             [apply Hru|apply Nat.ltb_lt, Hrt]].
  rewrite (qvals_in t Hqt) in H2.
  rewrite qvals_in in H2'; [|rewrite in_queue_write; apply andb_true_iff; split;
                             [apply Hrt|apply Nat.ltb_lt, Hru]].
  rewrite (proj2 (proj2 (write_queue_fields u (queue t)))) in H1'.
  rewrite (proj2 (proj2 (write_queue_fields t (queue u)))) in H2'.
  assert (HR : R1 ≡ₚ R2).
  { apply (Permutation_app_inv_l [queue t]). by rewrite <- H1', <- H2. }
  unfold write_queue at 1. fold s1.
  rewrite H2', H1, HR. done.
Qed.

Lemma swap_inv s x t u :
  queue_inv s -> get_todo s x = Some t -> In u (todos s) -> id u <> x ->
  in_queue t = true -> in_queue u = true ->
  queue_inv (write_queue (write_queue s (id u) (queue t)) x (queue u)).
Proof.
  intros (Hu & Hc & Hi) Ht Hin Hne Hqt Hqu.
  destruct (get_todo_spec s x t Ht) as [Htin Htx].
  split; [by apply write_queue_unique, write_queue_unique|].
  split; [eapply contiguous_perm; [eapply swap_qvals|]; eauto|].
  apply write_queue_inactive.
  - apply write_queue_inactive; [done|].
    intros v Hv Hvu Hr. rewrite (ids_inj _ v u Hu Hv Hin Hvu) in Hr.
    unfold in_queue in Hqu. by rewrite Hr in Hqu.
  - intros v Hv Hvx Hr. simpl in Hv. unfold put_todo in Hv.
    apply in_map_iff in Hv as (w & Hw & Hwin).
    destruct (Nat.eqb_spec (id w) (id u)) as [E|E].
    + exfalso. apply Hne. rewrite <- Hvx, <- Hw, <- E. symmetry. apply write_queue_fields.
    + subst v. rewrite (ids_inj _ w t Hu Hwin Htin) in Hr; [|congruence].
      unfold in_queue in Hqt. by rewrite Hr in Hqt.
Qed.

Lemma add_to_queue_inv s x : queue_inv s -> queue_inv (add_to_queue s x).
Proof.
  intros Hinv. pose proof Hinv as (Hu & Hc & Hi). unfold add_to_queue.
  destruct (get_todo s x) as [t|] eqn:Ht; [|done].
  destruct (get_todo_spec s x t Ht) as [Htin Htx].
  destruct (is_queue_relevant (status t)) eqn:Hr; simpl.
  2:{ destruct (queue t =? 0); simpl; [done|]. by apply clear_inv. }
  destruct (Nat.ltb_spec 0 (queue t)) as [Hq|Hq]; [done|].
  assert (Hq0 : queue t = 0) by lia.
  split; [by apply write_queue_unique|]. split.
  - destruct (put_qvals (todos s) x (fun v => flush v (with_queue v (get_max_queue s + 1)))
                t Hu Ht) as (R & H1 & H2).
    rewrite qvals_out in H1; [|unfold in_queue; rewrite Hq0; apply andb_false_r].
    rewrite qvals_in in H2; [|rewrite in_queue_write, Hr; apply Nat.ltb_lt; lia].
    rewrite (proj2 (proj2 (write_queue_fields _ _))) in H2.
    assert (Hmax : get_max_queue s = length (qvals (todos s))).
    { unfold get_max_queue.
      change (map queue (List.filter in_queue (todos s))) with (qvals (todos s)).
      rewrite (foldr_max_perm _ _ Hc), foldr_max_seq.
      destruct (length (qvals (todos s))); lia. }
    assert (H3 : qvals (todos (write_queue s x (get_max_queue s + 1)))
                 ≡ₚ seq 1 (S (length (qvals (todos s))))).
    { unfold write_queue, set_todos. cbn [todos]. rewrite H2, Hmax.
      simpl in H1. unfold contiguous in Hc.
      remember (length (qvals (todos s))) as N eqn:HN.
      rewrite <- H1, Hc, seq_S.
      replace (1 + N) with (N + 1) by lia.
      apply Permutation_cons_append. }
    unfold contiguous. rewrite (Permutation_length H3), length_seq. exact H3.
  - apply write_queue_inactive; [done|]. intros v Hv Hvx Hr'.
    rewrite (ids_inj _ v t Hu Hv Htin) in Hr'; [congruence|congruence].
Qed.

Lemma remove_from_queue_inv s x : queue_inv s -> queue_inv (remove_from_queue s x).
Proof.
  intros H. unfold remove_from_queue.
  destruct (get_todo s x) as [t|]; [|done].
  destruct (queue t =? 0); [done|]. by apply clear_inv.
Qed.

Lemma move_queue_up_inv s x : queue_inv s -> queue_inv (move_queue_up s x).
Proof.
  intros Hinv. pose proof Hinv as (Hu & Hc & Hi). unfold move_queue_up.
  destruct (get_todo s x) as [t|] eqn:Ht; [|done].
  destruct (get_todo_spec s x t Ht) as [Htin Htx].
  destruct (Nat.leb_spec (queue t) 1) as [H1|H1]; [done|].
  destruct (is_queue_relevant (status t)) eqn:Hr; simpl.
  2:{ destruct (queue t =? 0); simpl; [done|]. by apply clear_inv. }
  destruct (List.find _ (todos s)) as [u|] eqn:Hf.
  - apply find_some in Hf as [Huin Hcond].
    apply andb_true_iff in Hcond as [Hqu Hru]. apply Nat.eqb_eq in Hqu.
    assert (Hne : id u <> x).
    { intros E. rewrite (ids_inj _ u t Hu Huin Htin) in Hqu; [lia|congruence]. }
    rewrite <- Hqu. apply (swap_inv s x t u); auto.
    + unfold in_queue. rewrite Hr. apply Nat.ltb_lt. lia.
    + unfold in_queue. rewrite Hru. apply Nat.ltb_lt. lia.
  - by apply normalize_inv.
Qed.

Lemma move_queue_down_inv s x : queue_inv s -> queue_inv (move_queue_down s x).
Proof.
  intros Hinv. pose proof Hinv as (Hu & Hc & Hi). unfold move_queue_down.
  destruct (get_todo s x) as [t|] eqn:Ht; [|done].
  destruct (get_todo_spec s x t Ht) as [Htin Htx].
  destruct (Nat.eqb_spec (queue t) 0) as [H1|H1]; [done|].
  destruct (is_queue_relevant (status t)) eqn:Hr; simpl; [|by apply clear_inv].
  destruct (List.find _ (todos s)) as [u|] eqn:Hf.
  - apply find_some in Hf as [Huin Hcond].
    apply andb_true_iff in Hcond as [Hqu Hru]. apply Nat.eqb_eq in Hqu.
    assert (Hne : id u <> x).
    { intros E. rewrite (ids_inj _ u t Hu Huin Htin) in Hqu; [lia|congruence]. }
    rewrite <- Hqu. apply (swap_inv s x t u); auto.
    + unfold in_queue. rewrite Hr. apply Nat.ltb_lt. lia.
    + unfold in_queue. rewrite Hru. apply Nat.ltb_lt. lia.
  - by apply normalize_inv.
Qed.

Definition put_row (s : Store) (x : nat) (t2 : Todo) : Store :=
  set_todos s (put_todo (todos s) x (fun r => flush r t2)).

Lemma put_row_unique s x t2 :
  ids_unique s -> id t2 = x -> ids_unique (put_row s x t2).
Proof.
  unfold ids_unique, put_row. simpl. intros H E. rewrite put_ids; [done|].
  intros r _. rewrite (proj1 (flush_fields r t2)). done.
Qed.

Lemma put_row_inactive s x t2 :
  inactive_unqueued s -> (is_queue_relevant (status t2) = false -> queue t2 = 0) ->
  inactive_unqueued (put_row s x t2).
Proof.
  intros H H2. unfold inactive_unqueued, put_row. simpl.
  apply put_forall; [done|]. intros r _ _.
  pose proof (flush_fields r t2) as (_ & -> & -> & _). done.
Qed.

Lemma put_row_qvals s x t t2 :
  ids_unique s -> get_todo s x = Some t -> qvals [t2] = qvals [t] ->
  qvals (todos (put_row s x t2)) ≡ₚ qvals (todos s).
Proof.
  intros Hu Ht E. unfold put_row. simpl.
  destruct (put_qvals (todos s) x (fun r => flush r t2) t Hu Ht) as (R & H1 & H2).
  rewrite H2, H1, <- E.
  assert (Ef : qvals [flush t t2] = qvals [t2]).
  { pose proof (flush_fields t t2) as (_ & Hs & Hq & _).
    assert (Hiq : in_queue (flush t t2) = in_queue t2) by (unfold in_queue; by rewrite Hs, Hq).
    unfold qvals. cbn [List.filter]. rewrite Hiq. destruct (in_queue t2); cbn [map]; congruence. }
  by rewrite Ef.
Qed.

Lemma update_status_inv s x st :
  queue_inv s -> queue_inv (fst (update_todo s x (mkUpdate (Some st) None))).
Proof.
  intros Hinv. pose proof Hinv as (Hu & Hc & Hi). unfold update_todo.
  destruct (get_todo s x) as [t|] eqn:Ht; [|done].
  destruct (get_todo_spec s x t Ht) as [Htin Htx].
  cbv zeta. unfold apply_update, with_status. cbn [u_status u_queue status queue id].
  fold (put_row s x).
  set (t1 := {| id := id t; status := st; queue := queue t;
                parent_id := parent_id t; updated_at := updated_at t |}).
  destruct (negb (is_queue_relevant st) && negb (queue t =? 0)) eqn:Hcl; cbn [orb].
  - apply normalize_inv.
    + by apply put_row_unique.
    + by apply put_row_inactive.
  - assert (Hq : queue t1 = queue t) by done. rewrite Hq.
    replace ((0 <? queue t) && (queue t =? 0)) with false
      by (destruct (queue t); done).
    assert (Hrel : is_queue_relevant st = true \/ queue t = 0).
    { destruct (is_queue_relevant st); [by left|right].
      simpl in Hcl. apply negb_false_iff, Nat.eqb_eq in Hcl. done. }
    split; [by apply put_row_unique|]. split.
    + eapply contiguous_perm; [|exact Hc].
      apply (put_row_qvals s x t t1 Hu Ht).
      assert (Hiq : in_queue t1 = in_queue t).
      { unfold in_queue. cbn [status queue t1].
        destruct Hrel as [Hr|Hz]; [|by rewrite Hz, !andb_false_r].
        rewrite Hr. destruct (is_queue_relevant (status t)) eqn:Hrt; [done|].
        unfold inactive_unqueued in Hi. rewrite Forall_forall in Hi. rewrite (Hi t (proj2 (list_elem_of_In _ _) Htin) Hrt).
        done. }
      unfold qvals. cbn [List.filter]. rewrite Hiq.
      destruct (in_queue t); cbn [map]; congruence.
    + apply put_row_inactive; [done|]. cbn [status queue t1].
      intros Hr. destruct Hrel as [Hr'|Hz]; congruence.
Qed.

(* ------------------------------------------------------------------ *)
(** ** Reachability along dependency edges and [_would_create_cycle] *)

(** A path [x -> ... -> z] following depends-on edges. *)
Inductive reach (E : list TodoDependency) : nat -> nat -> Prop :=
  | reach_refl x : reach E x x
  | reach_step x y z d :
      In d E -> todo_id d = x -> depends_on_id d = y -> reach E y z -> reach E x z.

Lemma mem_In x l : mem x l = true <-> In x l.
Proof.
  unfold mem. rewrite existsb_exists. split.
  - intros (y & Hy & E). apply Nat.eqb_eq in E. by subst.
  - intros H. exists x. by rewrite Nat.eqb_refl.
Qed.

Lemma next_deps_In E x y :
  In y (next_deps E x) <-> exists d, In d E /\ todo_id d = x /\ depends_on_id d = y.
Proof.
  unfold next_deps. rewrite in_map_iff. split.
  - intros (d & <- & Hd). apply filter_In in Hd as [Hd Hx].
    apply Nat.eqb_eq in Hx. eauto.
  - intros (d & Hd & Hx & <-). exists d. split; [done|].
    apply filter_In. split; [done|]. by apply Nat.eqb_eq.
Qed.

Lemma reach_snoc E x y z :
  reach E x y -> In z (next_deps E y) -> reach E x z.
Proof.
  induction 1 as [x|x y w d Hd Hx Hy _ IH]; intros Hz.
  - apply next_deps_In in Hz as (d & Hd & Hx & Hy).
    eapply reach_step; eauto. constructor.
  - eapply reach_step; eauto.
Qed.

Lemma cycle_loop_sound fuel E start target visited stack :
  cycle_loop fuel E target visited stack = true ->
  (forall y, In y stack -> reach E start y) -> reach E start target.
Proof.
  revert visited stack. induction fuel as [|f IH]; intros visited stack Hl Hs; [done|].
  destruct stack as [|c rest]; simpl in Hl; [done|].
  destruct (Nat.eqb_spec c target) as [<-|Hne]; [auto with datatypes|].
  destruct (mem c visited).
  - apply (IH visited rest Hl). auto with datatypes.
  - apply (IH (c :: visited) _ Hl). intros y Hy.
    apply in_app_or in Hy as [Hy|Hy]; [|auto with datatypes].
    apply in_rev in Hy. apply (reach_snoc E start c y); auto with datatypes.
Qed.

(** Edges leaving a node not yet visited. *)
Definition pending_edges (E : list TodoDependency) (visited : list nat) : nat :=
  length (List.filter (fun d => negb (mem (todo_id d) visited)) E).

Lemma pending_edges_visit E c visited :
  ~ In c visited ->
  pending_edges E visited = pending_edges E (c :: visited) + length (next_deps E c).
Proof.
  intros Hc. unfold pending_edges, next_deps. rewrite length_map.
  induction E as [|d E IH]; [done|]. cbn [List.filter].
  assert (Hmc : mem (todo_id d) (c :: visited) = (todo_id d =? c) || mem (todo_id d) visited)
    by reflexivity.
  rewrite Hmc. destruct (todo_id d =? c) eqn:Hdc; cbn [orb negb].
  - apply Nat.eqb_eq in Hdc. rewrite Hdc.
    destruct (mem c visited) eqn:Hm; [apply mem_In in Hm; done|]. cbn [negb length]. lia.
  - destruct (mem (todo_id d) visited); cbn [negb length]; lia.
Qed.

Lemma cycle_loop_complete fuel E start target visited stack :
  cycle_loop fuel E target visited stack = false ->
  length stack + pending_edges E visited < fuel ->
  ~ In target visited ->
  (forall v w, In v visited -> In w (next_deps E v) -> In w visited \/ In w stack) ->
  (In start visited \/ In start stack) ->
  ~ reach E start target.
Proof.
  revert visited stack. induction fuel as [|f IH];
    intros visited stack Hl Hfuel Ht Hclos Hstart; [lia|].
  destruct stack as [|c rest]; simpl in Hl.
  - intros Hr. apply Ht.
    assert (Hall : forall x z, reach E x z -> In x visited -> In z visited).
    { induction 1 as [x|x y z d Hd Hx Hy _ IHr]; intros Hxv; [done|].
      apply IHr. destruct (Hclos x y Hxv) as [?|[]]; [|done].
      apply next_deps_In. eauto. }
    apply (Hall start); [done|]. destruct Hstart as [?|[]]; done.
  - destruct (Nat.eqb_spec c target) as [_|Hne]; [done|].
    destruct (mem c visited) eqn:Hm.
    + apply mem_In in Hm. apply (IH visited rest Hl); [simpl in Hfuel; lia|done| |].
      * intros v w Hv Hw. destruct (Hclos v w Hv Hw) as [?|[<-|?]]; auto.
      * destruct Hstart as [?|[<-|?]]; auto.
    + assert (Hc : ~ In c visited) by (intros H; apply mem_In in H; congruence).
      apply (IH (c :: visited) (rev (next_deps E c) ++ rest) Hl).
      * rewrite length_app, length_rev.
        rewrite (pending_edges_visit E c visited Hc) in Hfuel. simpl in Hfuel. lia.
      * intros [->|H]; done.
      * intros v w [<-|Hv] Hw.
        -- right. apply in_or_app. left. by apply in_rev in Hw.
        -- destruct (Hclos v w Hv Hw) as [?|[<-|?]]; simpl; auto with datatypes.
      * destruct Hstart as [?|[<-|?]]; simpl; auto with datatypes.
Qed.

(** [_would_create_cycle(start, target)] answers exactly whether a path of
    existing edges leads from [start] to [target]. *)
Lemma would_create_cycle_spec E start target :
  would_create_cycle E start target = true <-> reach E start target.
Proof.
  unfold would_create_cycle. split.
  - intros H. apply (cycle_loop_sound _ _ _ _ _ _ H). intros y [<-|[]]. constructor.
  - intros Hr. destruct (cycle_loop _ _ _ _ _) eqn:Hl; [done|]. exfalso.
    refine (cycle_loop_complete _ E start target [] [start] Hl _ _ _ _ Hr).
    + unfold pending_edges. rewrite filter_true; [simpl; lia|done].
    + intros [].
    + intros v w [].
    + right. by left.
Qed.

Lemma reach_snoc_edge E d u v :
  reach (E ++ [d]) u v -> reach E u v \/ reach E u (todo_id d).
Proof.
  induction 1 as [x|x y z d' Hd Hx Hy _ IH].
  - left. constructor.
  - apply in_app_or in Hd as [Hd|[<-|[]]].
    + destruct IH as [IH|IH]; [left|right]; eapply reach_step; eauto.
    + right. rewrite Hx. constructor.
Qed.

Lemma find_app {A} (f : A -> bool) l1 l2 :
  List.find f (l1 ++ l2) =
  match List.find f l1 with Some y => Some y | None => List.find f l2 end.
Proof.
  induction l1 as [|a l1 IH]; simpl; [done|]. destruct (f a); [done|]. exact IH.
Qed.

(* ------------------------------------------------------------------ *)
(** ** Reading a row back *)

Lemma find_map {A} (f : A -> bool) (g : A -> A) l :
  (forall a, f (g a) = f a) -> List.find f (map g l) = option_map g (List.find f l).
Proof.
  intros H. induction l as [|a l IH]; simpl; [done|]. rewrite H.
  destruct (f a); [done|]. exact IH.
Qed.

Lemma get_todo_put (l : list Todo) x f :
  (forall r, id r = x -> id (f r) = x) ->
  List.find (fun v => id v =? x) (put_todo l x f)
  = option_map f (List.find (fun v => id v =? x) l).
Proof.
  intros Hf. unfold put_todo. rewrite find_map.
  - destruct (List.find _ l) as [r|] eqn:E; [|done].
    apply find_key_spec in E as [_ E]. simpl. by rewrite E, Nat.eqb_refl.
  - intros r. destruct (Nat.eqb_spec (id r) x) as [E|E].
    + rewrite (Hf r E). apply Nat.eqb_refl.
    + by apply Nat.eqb_neq.
Qed.

Lemma get_todo_write_queue s x q :
  get_todo (write_queue s x q) x
  = option_map (fun r => flush r (with_queue r q)) (get_todo s x).
Proof.
  apply get_todo_put. intros r <-. apply write_queue_fields.
Qed.

Lemma get_todo_put_row s x t2 :
  id t2 = x -> get_todo (put_row s x t2) x = option_map (fun r => flush r t2) (get_todo s x).
Proof.
  intros E. apply get_todo_put. intros r _. by rewrite (proj1 (flush_fields r t2)).
Qed.

Lemma get_todo_normalize s x :
  get_todo (normalize_queue s) x
  = option_map (normalize_row (map id (get_queued_todos s))) (get_todo s x).
Proof.
  apply find_map. intros a. by rewrite (proj1 (normalize_row_fields _ a)).
Qed.

(** A row out of the queue is read back unchanged after [normalize_queue]. *)
Lemma get_todo_normalize_out s x r :
  get_todo s x = Some r -> in_queue r = false -> get_todo (normalize_queue s) x = Some r.
Proof.
  intros H Hq. rewrite get_todo_normalize, H. simpl. by rewrite normalize_row_out.
Qed.

Lemma in_queue_zero r : queue r = 0 -> in_queue r = false.
Proof. unfold in_queue. intros ->. apply andb_false_r. Qed.

Lemma check_forallb s x :
  check_dependencies_met s x =
  forallb (fun d => match get_todo s (depends_on_id d) with
                    | Some t => status_eqb (status t) COMPLETED
                    | None => true
                    end) (get_dependencies s x).
Proof. unfold check_dependencies_met. by destruct (get_dependencies s x). Qed.

Lemma Forall2_map_r {A} (P : A -> A -> Prop) (g : A -> A) l :
  Forall (fun a => P a (g a)) l -> Forall2 P l (map g l).
Proof. induction 1; simpl; constructor; auto. Qed.

(* ------------------------------------------------------------------ *)
(** ** The queue operations as a transition system *)

Inductive queue_step : Store -> Store -> Prop :=
  | step_add s x : queue_step s (add_to_queue s x)
  | step_remove s x : queue_step s (remove_from_queue s x)
  | step_up s x : queue_step s (move_queue_up s x)
  | step_down s x : queue_step s (move_queue_down s x)
  | step_normalize s : queue_step s (normalize_queue s)
  | step_status s x st : queue_step s (fst (update_todo s x (mkUpdate (Some st) None))).

Lemma queue_step_inv s s' : queue_step s s' -> queue_inv s -> queue_inv s'.
Proof.
  destruct 1 as [s x|s x|s x|s x|s|s x st]; intros H.
  - by apply add_to_queue_inv.
  - by apply remove_from_queue_inv.
  - by apply move_queue_up_inv.
  - by apply move_queue_down_inv.
  - destruct H as (Hu & _ & Hi). by apply normalize_inv.
  - by apply update_status_inv.
Qed.

(** A normalized store in which a completed row still holds queue 1. *)
Definition stale_store : Store :=
  mkStore [mk 1 PENDING 1; mk 2 COMPLETED 1] [].

Lemma stale_store_normalized : normalize_queue stale_store = stale_store.
Proof. reflexivity. Qed.

Definition dep_store : Store :=
  mkStore [mk 1 PENDING 0; mk 2 PENDING 0; mk 3 PENDING 0] [mkDep 1 2 3; mkDep 2 3 1].

Definition delete_store : Store :=
  mkStore [mk 1 PENDING 1; mk 2 PENDING 2] [mkDep 1 2 1].

Lemma delete_todo_outgoing s x :
  forall d, In d (todo_dependencies (fst (delete_todo s x))) ->
  todo_id d <> x \/ get_todo s x = None.
Proof.
  intros d. unfold delete_todo. destruct (get_todo s x) as [t|]; [|by right].
  simpl. intros Hd. left. apply filter_In in Hd as [_ Hd].
  apply negb_true_iff in Hd. intros E. rewrite E in Hd.
  assert (Hx : mem x (subtree (length (todos s)) (todos s) x) = true).
  { destruct (length (todos s)); simpl; by rewrite Nat.eqb_refl. }
  congruence.
Qed.

Lemma apply_update_id t u : id (apply_update t u) = id t.
Proof. unfold apply_update. by destruct (u_status u), (u_queue u). Qed.

Lemma update_snd s x u : snd (update_todo s x u) = get_todo (fst (update_todo s x u)) x.
Proof. unfold update_todo. destruct (get_todo s x) eqn:H; [done|]. simpl. by rewrite H. Qed.

(** An update leaving the row with a status outside the queue returns the
    row with queue 0, whether or not the caller also sent a queue value. *)
Lemma update_inactive_row s x t u :
  get_todo s x = Some t -> is_queue_relevant (status (apply_update t u)) = false ->
  exists r, snd (update_todo s x u) = Some r /\ queue r = 0.
Proof.
  intros Ht Hrel.
  assert (Hid : id (apply_update t u) = x)
    by (rewrite apply_update_id; apply (get_todo_spec _ _ _ Ht)).
  unfold update_todo. rewrite Ht. cbv zeta. rewrite Hrel.
  set (t1 := apply_update t u) in *.
  set (t2 := if negb false && negb (queue t1 =? 0) then with_queue t1 0 else t1).
  assert (Hz : queue t2 = 0).
  { subst t2. destruct (queue t1 =? 0) eqn:E; simpl; [by apply Nat.eqb_eq|done]. }
  assert (Hi : id t2 = x) by (subst t2; by destruct (_ && _)).
  fold (put_row s x t2).
  assert (Hg : get_todo (put_row s x t2) x = Some (flush t t2))
    by (by rewrite get_todo_put_row, Ht).
  assert (Hf : queue (flush t t2) = 0)
    by (rewrite (proj1 (proj2 (proj2 (flush_fields t t2)))); done).
  exists (flush t t2). split; [|done].
  destruct (_ || _); cbn [snd]; [|done].
  apply get_todo_normalize_out; [done|by apply in_queue_zero].
Qed.

(* ================================================================== *)
(** * Claims *)

(** C1 (as stated): contiguity of the queue is preserved from every
    normalized store by [add_to_queue], [remove_from_queue],
    [move_queue_up], [move_queue_down], [normalize_queue] and status-only
    [update_todo].  False: a normalized store may hold a completed row with
    a stale queue value; reopening it brings the value back into the queue,
    next to the row already at that position. *)
Lemma queue_contiguity_counterexample :
  ~ (forall s s', ids_unique s -> contiguous s -> rtc queue_step s s' -> contiguous s').
Proof.
  intros H.
  assert (Hc : contiguous (fst (update_todo stale_store 2 (mkUpdate (Some PENDING) None)))).
  { apply (H stale_store).
    - apply (bool_decide_unpack _). vm_compute. exact I.
    - unfold contiguous. vm_compute. reflexivity.
    - apply rtc_once, step_status. }
  unfold contiguous in Hc. vm_compute in Hc.
  apply Permutation_sym, (Permutation_in 2) in Hc; [|simpl; auto].
  simpl in Hc. lia.
Qed.

(** C1 (amended): from a store whose queued, status-relevant rows hold
    [1..N] once each and whose completed or cancelled rows hold queue 0,
    every sequence of [add_to_queue], [remove_from_queue], [move_queue_up],
    [move_queue_down], [normalize_queue] and status-only [update_todo]
    reaches a store with the same two properties. *)
Theorem queue_contiguity_invariant s s' :
  ids_unique s -> contiguous s -> inactive_unqueued s -> rtc queue_step s s' ->
  contiguous s' /\ inactive_unqueued s'.
Proof.
  intros Hu Hc Hi Hr.
  assert (H : queue_inv s) by (split; [done|split; done]).
  clear Hu Hc Hi.
  induction Hr as [s|s s1 s' Hs _ IH].
  - destruct H as (_ & ? & ?). done.
  - apply IH. by apply (queue_step_inv s).
Qed.

Lemma queue_contiguity_invariant_witness :
  contiguous (move_queue_up abc 3) /\ inactive_unqueued (move_queue_up abc 3).
Proof.
  apply (queue_contiguity_invariant abc).
  - apply (bool_decide_unpack _). vm_compute. exact I.
  - unfold contiguous. vm_compute. reflexivity.
  - unfold inactive_unqueued. repeat constructor; simpl; intros Hf; discriminate Hf.
  - apply rtc_once, step_up.
Defined.

(** C2: for two distinct existing todos, [create_dependency a b] raises the
    circular-dependency error exactly when a path of existing depends-on
    edges leads from [b] to [a]; when it raises, the store (and so the edge
    table) is unchanged. *)
Theorem add_dependency_cycle_detected s a b ta tb :
  a <> b -> get_todo s a = Some ta -> get_todo s b = Some tb ->
  (snd (create_dependency s a b) = Raised CycleDetected <-> reach (todo_dependencies s) b a) /\
  (snd (create_dependency s a b) = Raised CycleDetected -> fst (create_dependency s a b) = s).
Proof.
  intros Hab Ha Hb. unfold create_dependency.
  replace (a =? b) with false by (symmetry; by apply Nat.eqb_neq).
  rewrite Ha, Hb, <- would_create_cycle_spec.
  destruct (would_create_cycle _ b a); simpl; [done|].
  destruct (List.find _ _); simpl; (split; [split; discriminate|discriminate]).
Qed.

Lemma add_dependency_cycle_detected_witness :
  (snd (create_dependency dep_store 1 2) = Raised CycleDetected <->
     reach (todo_dependencies dep_store) 2 1) /\
  (snd (create_dependency dep_store 1 2) = Raised CycleDetected ->
     fst (create_dependency dep_store 1 2) = dep_store).
Proof.
  apply (add_dependency_cycle_detected dep_store 1 2 (mk 1 PENDING 0) (mk 2 PENDING 0));
    [lia|reflexivity|reflexivity].
Defined.

(** C3 (code_bug): deleting todo 1, on which todo 2 depends and which holds
    queue position 1, leaves the edge [2 -> 1] in place and todo 2 at queue
    position 2 with no position 1. *)
Theorem delete_todo_keeps_incoming_edge :
  delete_todo delete_store 1 = (mkStore [mk 2 PENDING 2] [mkDep 1 2 1], true) /\
  ~ contiguous (fst (delete_todo delete_store 1)).
Proof.
  split; [reflexivity|].
  unfold contiguous. vm_compute. intros H.
  apply (Permutation_in 2) in H; [|simpl; auto]. simpl in H. lia.
Qed.

(** C4: on an existing row with queue > 0, an update setting the status to
    completed or cancelled stores the row with queue 0 and then runs
    [normalize_queue]; the store after the call is contiguous and the
    returned row has queue 0. *)
Theorem update_to_inactive_dequeues s x t u st :
  ids_unique s -> get_todo s x = Some t -> 0 < queue t ->
  u_status u = Some st -> (st = COMPLETED \/ st = CANCELLED) ->
  fst (update_todo s x u) = normalize_queue (put_row s x (with_queue (apply_update t u) 0)) /\
  contiguous (fst (update_todo s x u)) /\
  exists r, snd (update_todo s x u) = Some r /\ queue r = 0.
Proof.
  intros Hu Ht Hq Hs Hst.
  assert (Hrel : is_queue_relevant (status (apply_update t u)) = false).
  { unfold apply_update. rewrite Hs. destruct (u_queue u); simpl; by destruct Hst as [-> | ->]. }
  assert (Hid : id (apply_update t u) = x)
    by (rewrite apply_update_id; apply (get_todo_spec _ _ _ Ht)).
  assert (E : fst (update_todo s x u)
              = normalize_queue (put_row s x (with_queue (apply_update t u) 0))).
  { unfold update_todo. rewrite Ht. cbv zeta. rewrite Hrel.
    set (t1 := apply_update t u) in *.
    destruct (queue t1 =? 0) eqn:Hq1; cbn [negb andb orb fst].
    - apply Nat.eqb_eq in Hq1.
      replace (0 <? queue t) with true by (symmetry; by apply Nat.ltb_lt).
      rewrite Hq1. cbn [andb Nat.eqb].
      assert (Et1 : with_queue t1 0 = t1) by (destruct t1; simpl in *; by subst).
      by rewrite Et1.
    - done. }
  split; [done|split].
  - rewrite E. apply normalize_contiguous, put_row_unique; [done|].
    unfold with_queue. simpl. done.
  - by apply (update_inactive_row s x t u).
Qed.

Lemma update_to_inactive_dequeues_witness :
  fst (update_todo abc 2 (mkUpdate (Some COMPLETED) None))
    = normalize_queue (put_row abc 2 (with_queue (apply_update (mk 2 PENDING 2)
                                                   (mkUpdate (Some COMPLETED) None)) 0)) /\
  contiguous (fst (update_todo abc 2 (mkUpdate (Some COMPLETED) None))) /\
  exists r, snd (update_todo abc 2 (mkUpdate (Some COMPLETED) None)) = Some r /\ queue r = 0.
Proof.
  apply (update_to_inactive_dequeues abc 2 (mk 2 PENDING 2) (mkUpdate (Some COMPLETED) None)
           COMPLETED).
  - apply (bool_decide_unpack _). vm_compute. exact I.
  - reflexivity.
  - simpl. lia.
  - reflexivity.
  - left. reflexivity.
Defined.

(** C5: a created row whose status is completed or cancelled is stored
    with queue 0 whatever queue value was requested; an update of an
    existing row whose resulting status is completed or cancelled succeeds
    and returns the row with queue 0, whatever queue value was sent. *)
Theorem inactive_queue_forced_zero s c x u t :
  (is_queue_relevant (c_status c) = false ->
     queue (snd (create_todo s c)) = 0 /\
     In (snd (create_todo s c)) (todos (fst (create_todo s c)))) /\
  (get_todo s x = Some t -> is_queue_relevant (status (apply_update t u)) = false ->
     exists r, snd (update_todo s x u) = Some r /\ queue r = 0).
Proof.
  split.
  - intros Hc. unfold create_todo. simpl. rewrite Hc. split; [done|].
    apply in_or_app. right. left. done.
  - apply update_inactive_row.
Qed.

Lemma inactive_queue_forced_zero_witness :
  (queue (snd (create_todo abc (mkCreate COMPLETED 5 None))) = 0 /\
   In (snd (create_todo abc (mkCreate COMPLETED 5 None)))
      (todos (fst (create_todo abc (mkCreate COMPLETED 5 None))))) /\
  (exists r, snd (update_todo abc 2 (mkUpdate (Some CANCELLED) (Some 7))) = Some r /\ queue r = 0).
Proof.
  pose proof (inactive_queue_forced_zero abc (mkCreate COMPLETED 5 None) 2
                (mkUpdate (Some CANCELLED) (Some 7)) (mk 2 PENDING 2)) as [H1 H2].
  split; [apply H1; reflexivity|apply H2; reflexivity].
Defined.

(** C6: [check_dependencies_met s x] holds exactly when every prerequisite
    row of an edge [x -> y] that exists has status completed; so one
    pending, in-progress or cancelled prerequisite makes it false. *)
Theorem is_ready_iff s x :
  check_dependencies_met s x = true <->
  forall d, In d (todo_dependencies s) -> todo_id d = x ->
  forall t, get_todo s (depends_on_id d) = Some t -> status t = COMPLETED.
Proof.
  rewrite check_forallb, forallb_forall. unfold get_dependencies. split.
  - intros H d Hd Hx t Ht.
    assert (Hf : In d (List.filter (fun d => todo_id d =? x) (todo_dependencies s)))
      by (apply filter_In; split; [done|by apply Nat.eqb_eq]).
    specialize (H d Hf). rewrite Ht in H. unfold status_eqb in H.
    by apply bool_decide_eq_true in H.
  - intros H d Hd. apply filter_In in Hd as [Hd Hx]. apply Nat.eqb_eq in Hx.
    destruct (get_todo s (depends_on_id d)) as [t|] eqn:Ht; [|done].
    unfold status_eqb. apply bool_decide_eq_true. eauto.
Qed.

(** C7 (code_bug): todo 2 is completed but still holds queue 1, in a store
    that [normalize_queue] leaves as it is; [move_queue_up] returns at its
    [queue <= 1] test and leaves the queue value 1, while [move_queue_down]
    clears it to 0. *)
Theorem move_up_keeps_stale_queue :
  get_todo stale_store 2 = Some (mk 2 COMPLETED 1) /\
  normalize_queue stale_store = stale_store /\
  move_queue_up stale_store 2 = stale_store /\
  option_map queue (get_todo (move_queue_down stale_store 2) 2) = Some 0.
Proof. split; [reflexivity|split; [reflexivity|split; reflexivity]]. Qed.

(** C8: on an existing row, [remove_from_queue] leaves the row with queue
    0; when the row was queued it writes queue 0 whatever the status and
    then runs [normalize_queue], so the store is contiguous afterwards; when
    the row already had queue 0 the store is unchanged. *)
Theorem remove_from_queue_spec s x t :
  ids_unique s -> get_todo s x = Some t ->
  (exists r, get_todo (remove_from_queue s x) x = Some r /\ queue r = 0) /\
  (0 < queue t -> remove_from_queue s x = normalize_queue (write_queue s x 0) /\
                  contiguous (remove_from_queue s x)) /\
  (queue t = 0 -> remove_from_queue s x = s).
Proof.
  intros Hu Ht. unfold remove_from_queue. rewrite Ht.
  destruct (queue t =? 0) eqn:Hq.
  - apply Nat.eqb_eq in Hq. split; [exists t; done|]. split; [lia|done].
  - apply Nat.eqb_neq in Hq. split; [|split; [|lia]].
    + exists (flush t (with_queue t 0)).
      assert (Hz : queue (flush t (with_queue t 0)) = 0) by apply write_queue_fields.
      split; [|done]. apply get_todo_normalize_out; [|by apply in_queue_zero].
      by rewrite get_todo_write_queue, Ht.
    + intros _. split; [done|].
      by apply normalize_contiguous, write_queue_unique.
Qed.

Lemma remove_from_queue_spec_witness :
  (exists r, get_todo (remove_from_queue abc 2) 2 = Some r /\ queue r = 0) /\
  (0 < queue (mk 2 PENDING 2) ->
     remove_from_queue abc 2 = normalize_queue (write_queue abc 2 0) /\
     contiguous (remove_from_queue abc 2)) /\
  (queue (mk 2 PENDING 2) = 0 -> remove_from_queue abc 2 = abc).
Proof.
  apply (remove_from_queue_spec abc 2 (mk 2 PENDING 2)).
  - apply (bool_decide_unpack _). vm_compute. exact I.
  - reflexivity.
Defined.

(** C9: [normalize_queue] is idempotent and leaves every row whose queue
    value it does not change untouched (no write, same [updated_at]); and a
    second [create_dependency] with the pair of a successful first one
    returns the same edge and leaves the store as the first call left it. *)
Theorem normalize_and_add_dependency_idempotent s a b s1 e :
  (ids_unique s ->
     normalize_queue (normalize_queue s) = normalize_queue s /\
     Forall2 (fun t u => queue u = queue t -> u = t) (todos s) (todos (normalize_queue s))) /\
  (create_dependency s a b = (s1, Returned (Some e)) ->
     create_dependency s1 a b = (s1, Returned (Some e))).
Proof.
  split.
  - intros Hu. split; [by apply normalize_idem|].
    apply Forall2_map_r, Forall_forall. intros t _. apply normalize_row_unwritten.
  - unfold create_dependency. intros H.
    destruct (a =? b) eqn:Eab; [discriminate|].
    destruct (get_todo s a) as [ta|] eqn:Ha; [|discriminate].
    destruct (get_todo s b) as [tb|] eqn:Hb; [|discriminate].
    destruct (would_create_cycle (todo_dependencies s) b a) eqn:Hc; [discriminate|].
    destruct (List.find _ (todo_dependencies s)) as [ex|] eqn:Hf.
    + injection H as <- <-. by rewrite Ha, Hb, Hc, Hf.
    + injection H as <- <-.
      unfold get_todo in *. cbn [todos todo_dependencies] in *. rewrite Ha, Hb.
      replace (would_create_cycle _ b a) with false.
      * rewrite find_app, Hf. cbn. by rewrite !Nat.eqb_refl.
      * symmetry. apply not_true_iff_false. rewrite would_create_cycle_spec.
        apply not_true_iff_false in Hc. rewrite would_create_cycle_spec in Hc.
        intros R. apply reach_snoc_edge in R as [R|R]; by apply Hc.
Qed.

Lemma normalize_and_add_dependency_idempotent_witness :
  (normalize_queue (normalize_queue abc) = normalize_queue abc /\
   Forall2 (fun t u => queue u = queue t -> u = t) (todos abc) (todos (normalize_queue abc))) /\
  create_dependency (mkStore (todos abc) [mkDep 1 1 2]) 1 2
    = (mkStore (todos abc) [mkDep 1 1 2], Returned (Some (mkDep 1 1 2))).
Proof.
  pose proof (normalize_and_add_dependency_idempotent abc 1 2
                (mkStore (todos abc) [mkDep 1 1 2]) (mkDep 1 1 2)) as [H1 H2].
  split.
  - apply H1. apply (bool_decide_unpack _). vm_compute. exact I.
  - apply H2. reflexivity.
Defined.

(** C10: an edge [x -> y] whose prerequisite [y] has no row (for instance
    after the prerequisite row was deleted) counts as satisfied: removing
    any one such edge from the store never changes the readiness check of
    [x], whatever the other edges of [x] are; so when every edge of [x] is
    dangling, [x] is reported ready. *)
Theorem dangling_prerequisites_ready s x :
  (forall E1 d E2, todo_dependencies s = E1 ++ d :: E2 ->
     get_todo s (depends_on_id d) = None ->
     check_dependencies_met s x = check_dependencies_met (mkStore (todos s) (E1 ++ E2)) x) /\
  ((forall d, In d (todo_dependencies s) -> todo_id d = x ->
              get_todo s (depends_on_id d) = None) ->
   check_dependencies_met s x = true).
Proof.
  split.
  - intros E1 d E2 HE Hd. rewrite !check_forallb. unfold get_dependencies.
    change (get_todo (mkStore (todos s) (E1 ++ E2))) with (get_todo s).
    cbn [todo_dependencies]. rewrite HE, !List.filter_app, !forallb_app. cbn [List.filter].
    destruct (todo_id d =? x); cbn [forallb]; [rewrite Hd|]; done.
  - intros H. rewrite check_forallb. apply forallb_forall. intros d Hd.
    apply filter_In in Hd as [Hd Hx]. apply Nat.eqb_eq in Hx. by rewrite (H d Hd Hx).
Qed.

Lemma dangling_prerequisites_ready_witness :
  let s := mkStore [mk 1 COMPLETED 0; mk 2 PENDING 0] [mkDep 1 2 1; mkDep 2 2 9] in
  check_dependencies_met s 2 = check_dependencies_met (mkStore (todos s) [mkDep 1 2 1]) 2 /\
  check_dependencies_met
    (fst (delete_todo (mkStore [mk 1 PENDING 0; mk 2 PENDING 0] [mkDep 1 2 1]) 1)) 2 = true.
Proof.
  intros s. split.
  - apply (proj1 (dangling_prerequisites_ready s 2) [mkDep 1 2 1] (mkDep 2 2 9) []);
      reflexivity.
  - apply (proj2 (dangling_prerequisites_ready _ 2)). intros d Hd _.
    vm_compute in Hd. destruct Hd as [<-|[]]. reflexivity.
Defined.

(* ================================================================== *)
(** * Further properties of the queue, dependency and schema code *)

(* ------------------------------------------------------------------ *)
(** ** Queue listing and renumbering *)

Lemma key_inj {B} (f : Todo -> B) (l : list Todo) a b :
  NoDup (map f l) -> In a l -> In b l -> f a = f b -> a = b.
Proof.
  induction l as [|c l IH]; intros Hnd Ha Hb E; [done|].
  inversion Hnd as [|? ? Hn Hnd']; subst.
  destruct Ha as [<-|Ha], Hb as [<-|Hb]; [done| | |auto].
  - exfalso. apply Hn. apply list_elem_of_In. rewrite E. by apply in_map.
  - exfalso. apply Hn. apply list_elem_of_In. rewrite <- E. by apply in_map.
Qed.

Lemma seq_sorted_lt a n : Sorted lt (seq a n).
Proof.
  revert a. induction n as [|n IH]; intros a; simpl; constructor; [apply IH|].
  destruct n; simpl; constructor. lia.
Qed.

Lemma Sorted_of_keys {A B} (R : relation A) (R' : relation B) (f : A -> B) (l : list A) :
  (forall a b, R' (f a) (f b) -> R a b) -> Sorted R' (map f l) -> Sorted R l.
Proof.
  intros HR. induction l as [|a l IH]; intros H; [constructor|].
  inversion H as [|? ? H1 H2]; subst. constructor; [by apply IH|].
  destruct l as [|b l]; constructor. apply HR. by inversion H2.
Qed.

Lemma queued_seq s :
  contiguous s -> map queue (get_queued_todos s) = seq 1 (length (qvals (todos s))).
Proof.
  intros Hc. rewrite map_fmap. apply (Sorted_unique le).
  - apply (Sorted_fmap queue queue_le); [intros a b; unfold queue_le; lia|].
    apply Sorted_merge_sort. exact queue_le_total.
  - apply seq_sorted.
  - rewrite <- map_fmap. etrans; [|exact Hc]. unfold qvals.
    apply Permutation_map, queued_perm.
Qed.

Lemma normalize_in_queue s t :
  In t (todos s) ->
  in_queue (normalize_row (map id (get_queued_todos s)) t) = in_queue t.
Proof.
  intros Ht. destruct (in_queue t) eqn:Hq.
  - destruct (queued_index s t Ht Hq) as [i Hi].
    unfold in_queue. rewrite (proj1 (proj2 (normalize_row_fields _ t))).
    rewrite (normalize_row_at _ t i Hq Hi).
    unfold in_queue in Hq. apply andb_true_iff in Hq as [-> _]. done.
  - by rewrite normalize_row_out.
Qed.

Lemma normalize_L_seq s :
  ids_unique s ->
  map (fun t => queue (normalize_row (map id (get_queued_todos s)) t)) (get_queued_todos s)
  = seq 1 (length (get_queued_todos s)).
Proof.
  intros Hu. set (L := get_queued_todos s). set (ord := map id L).
  apply list_eq. intros i. rewrite map_fmap, list_lookup_fmap.
  destruct (L !! i) as [t|] eqn:Ht; simpl.
  - assert (Hq : in_queue t = true).
    { apply list_elem_of_lookup_2 in Ht. apply list_elem_of_In in Ht.
      apply (Permutation_in _ (queued_perm s)) in Ht.
      apply filter_In in Ht as [_ Ht]. exact Ht. }
    assert (Hi : index_of (id t) ord = Some i).
    { apply index_of_lookup; [apply queued_NoDup, Hu|].
      unfold ord. by rewrite map_fmap, list_lookup_fmap, Ht. }
    rewrite (normalize_row_at ord t i Hq Hi).
    symmetry. apply lookup_seq. split; [lia|]. by apply lookup_lt_Some in Ht.
  - symmetry. apply lookup_seq_ge. by apply lookup_ge_None in Ht.
Qed.

Lemma max_queue_len s :
  contiguous s -> get_max_queue s = length (qvals (todos s)).
Proof.
  intros Hc. unfold get_max_queue.
  change (map queue (List.filter in_queue (todos s))) with (qvals (todos s)).
  rewrite (foldr_max_perm _ _ Hc), foldr_max_seq.
  destruct (length (qvals (todos s))); lia.
Qed.

(** The queue listing after [normalize_queue] is the old listing with the
    new positions. *)
Lemma normalize_queued_rows s :
  ids_unique s ->
  get_queued_todos (normalize_queue s)
  = map (normalize_row (map id (get_queued_todos s))) (get_queued_todos s).
Proof.
  intros Hu. pose proof (normalize_unique s Hu) as Hu'.
  pose proof (normalize_L_seq s Hu) as HL.
  set (L := get_queued_todos s) in *. set (ord := map id L) in *.
  unfold get_queued_todos at 1.
  assert (Ht : todos (normalize_queue s) = map (normalize_row ord) (todos s)) by reflexivity.
  rewrite Ht. rewrite filter_map_comm; [|intros t Hin; by apply normalize_in_queue].
  assert (Hp : map (normalize_row ord) (List.filter in_queue (todos s)) ≡ₚ map (normalize_row ord) L).
  { apply Permutation_map. symmetry. apply queued_perm. }
  apply (Sorted_unique_strong queue_le).
  - intros x1 x2 H1 H2 Hle1 Hle2.
    assert (Hid : id x1 = id x2) by (unfold queue_le in *; lia).
    apply list_elem_of_In in H1, H2.
    apply (Permutation_in _ (merge_sort_Permutation _ _)) in H1.
    apply (Permutation_in _ (Permutation_sym Hp)) in H2.
    apply (key_inj id (todos (normalize_queue s))); [exact Hu'| | |exact Hid]; rewrite Ht.
    + apply in_map_iff in H1 as (y & <- & Hy). apply filter_In in Hy as [Hy _].
      by apply in_map.
    + apply in_map_iff in H2 as (y & <- & Hy). apply filter_In in Hy as [Hy _].
      by apply in_map.
  - apply Sorted_merge_sort. exact queue_le_total.
  - apply (Sorted_of_keys _ lt queue); [intros a b Hab; by left|].
    rewrite map_map. rewrite HL. apply seq_sorted_lt.
  - etrans; [apply merge_sort_Permutation|exact Hp].
Qed.

(** X1: on a contiguous store [get_max_queue] is the number of queued,
    status-relevant rows. *)
Theorem get_max_queue_count s :
  contiguous s -> get_max_queue s = length (qvals (todos s)).
Proof. apply max_queue_len. Qed.

Lemma get_max_queue_count_witness :
  get_max_queue abc = length (qvals (todos abc)).
Proof. apply get_max_queue_count. unfold contiguous. vm_compute. reflexivity. Defined.

(** X2: on a contiguous store [get_queued_todos] lists the positions
    [1, 2, ..., N] in this order, and with [limit = n] the positions
    [1, ..., min n N]. *)
Theorem queued_listing_positions s limit :
  contiguous s ->
  map queue (get_queued_todos_limit s limit)
  = seq 1 (match limit with
           | Some n => Nat.min n (length (qvals (todos s)))
           | None => length (qvals (todos s))
           end).
Proof.
  intros Hc. destruct limit as [n|]; simpl; [|by apply queued_seq].
  rewrite <- firstn_map, (queued_seq s Hc). apply take_seq.
Qed.

Lemma queued_listing_positions_witness :
  map queue (get_queued_todos_limit abc (Some 2)) = seq 1 (Nat.min 2 (length (qvals (todos abc)))).
Proof.
  apply (queued_listing_positions abc (Some 2)). unfold contiguous. vm_compute. reflexivity.
Defined.

(** X3: [normalize_queue] keeps the order of the queue: the ids listed by
    [get_queued_todos] are the same, in the same order, before and after. *)
Theorem normalize_keeps_queue_order s :
  ids_unique s -> map id (get_queued_todos (normalize_queue s)) = map id (get_queued_todos s).
Proof.
  intros Hu. rewrite (normalize_queued_rows s Hu), map_map.
  apply map_ext. intros t. apply normalize_row_fields.
Qed.

Lemma normalize_keeps_queue_order_witness :
  let s := mkStore [mk 1 PENDING 4; mk 2 COMPLETED 2; mk 3 IN_PROGRESS 4; mk 4 PENDING 2] [] in
  map id (get_queued_todos (normalize_queue s)) = map id (get_queued_todos s).
Proof.
  intros s. apply normalize_keeps_queue_order.
  apply (bool_decide_unpack _). vm_compute. exact I.
Defined.

(** X4: on a store with unique ids, [normalize_queue] renumbers the queue
    to exactly the positions [1..N], once each, where [N] is the number of
    queued, status-relevant rows before the call; the largest position
    afterwards, read by [get_max_queue], is that [N]. *)
Theorem normalize_queue_contiguous s :
  ids_unique s ->
  qvals (todos (normalize_queue s)) ≡ₚ seq 1 (length (List.filter in_queue (todos s))) /\
  get_max_queue (normalize_queue s) = length (List.filter in_queue (todos s)).
Proof.
  intros Hu. pose proof (normalize_contiguous s Hu) as Hc.
  assert (Hl : length (qvals (todos (normalize_queue s))) = length (List.filter in_queue (todos s))).
  { unfold qvals. rewrite length_map. simpl.
    rewrite filter_map_comm; [|intros t Hin; by apply normalize_in_queue].
    by rewrite length_map. }
  split.
  - unfold contiguous in Hc. by rewrite <- Hl.
  - rewrite (max_queue_len _ Hc). exact Hl.
Qed.

Lemma normalize_queue_contiguous_witness :
  let s := mkStore [mk 1 PENDING 4; mk 2 COMPLETED 2; mk 3 IN_PROGRESS 9; mk 4 PENDING 0] [] in
  qvals (todos (normalize_queue s)) ≡ₚ seq 1 (length (List.filter in_queue (todos s))) /\
  get_max_queue (normalize_queue s) = length (List.filter in_queue (todos s)).
Proof.
  intros s. apply normalize_queue_contiguous.
  apply (bool_decide_unpack _). vm_compute. exact I.
Defined.

(* ------------------------------------------------------------------ *)
(** ** Adding to and moving within the queue *)

Lemma find_put_other (l : list Todo) x f y :
  y <> x -> (forall r, id r = x -> id (f r) = x) ->
  List.find (fun v => id v =? y) (put_todo l x f) = List.find (fun v => id v =? y) l.
Proof.
  intros Hne Hf. unfold put_todo. induction l as [|a l IH]; [done|]. simpl.
  destruct (Nat.eqb_spec (id a) x) as [E|E].
  - rewrite (Hf a E).
    replace (x =? y) with false by (symmetry; apply Nat.eqb_neq; congruence).
    replace (id a =? y) with false by (symmetry; apply Nat.eqb_neq; congruence).
    exact IH.
  - destruct (id a =? y); [done|exact IH].
Qed.

Lemma get_todo_write_other s x q y :
  y <> x -> get_todo (write_queue s x q) y = get_todo s y.
Proof.
  intros Hne. apply find_put_other; [done|]. intros r <-. apply write_queue_fields.
Qed.

Lemma get_todo_write_status s z q y :
  option_map status (get_todo (write_queue s z q) y) = option_map status (get_todo s y).
Proof.
  destruct (Nat.eq_dec y z) as [->|Hne].
  - rewrite get_todo_write_queue. destruct (get_todo s z); simpl; [|done].
    f_equal. apply write_queue_fields.
  - by rewrite get_todo_write_other.
Qed.

Lemma queued_at s p :
  contiguous s -> 1 <= p <= length (qvals (todos s)) ->
  exists u, In u (todos s) /\ in_queue u = true /\ queue u = p.
Proof.
  intros Hc Hp. assert (H : In p (qvals (todos s))).
  { apply (Permutation_in _ (Permutation_sym Hc)). apply in_seq. lia. }
  unfold qvals in H. apply in_map_iff in H as (u & <- & Hu).
  apply filter_In in Hu as [? ?]. eauto.
Qed.

Lemma queued_bound s t :
  contiguous s -> In t (todos s) -> in_queue t = true ->
  1 <= queue t <= length (qvals (todos s)).
Proof.
  intros Hc Ht Hq. assert (H : In (queue t) (seq 1 (length (qvals (todos s))))).
  { apply (Permutation_in _ Hc). unfold qvals. apply in_map, filter_In. done. }
  apply in_seq in H. lia.
Qed.

Lemma queued_unique s v w :
  contiguous s -> In v (todos s) -> In w (todos s) -> in_queue v = true -> in_queue w = true ->
  queue v = queue w -> v = w.
Proof.
  intros Hc Hv Hw Hqv Hqw E.
  assert (Hnd : NoDup (qvals (todos s))) by (unfold contiguous in Hc; rewrite Hc; apply NoDup_seq).
  apply (key_inj queue (List.filter in_queue (todos s))); [exact Hnd| | |done];
    by apply filter_In.
Qed.

Lemma swap_get_x s x t u a b :
  get_todo s x = Some t -> id u <> x ->
  option_map queue (get_todo (write_queue (write_queue s (id u) a) x b) x) = Some b.
Proof.
  intros Ht Hne. rewrite get_todo_write_queue, get_todo_write_other, Ht by congruence.
  simpl. f_equal. apply write_queue_fields.
Qed.

Lemma swap_get_u s x u a b :
  ids_unique s -> In u (todos s) -> id u <> x ->
  option_map queue (get_todo (write_queue (write_queue s (id u) a) x b) (id u)) = Some a.
Proof.
  intros Hu Hin Hne. rewrite get_todo_write_other by done. rewrite get_todo_write_queue.
  unfold get_todo. rewrite (find_key _ _ Hu Hin). simpl. f_equal. apply write_queue_fields.
Qed.

Lemma swap_get_other s x u a b y :
  y <> x -> y <> id u ->
  get_todo (write_queue (write_queue s (id u) a) x b) y = get_todo s y.
Proof. intros. by rewrite !get_todo_write_other. Qed.

Lemma in_queue_intro u : is_queue_relevant (status u) = true -> 0 < queue u -> in_queue u = true.
Proof. intros Hr Hq. unfold in_queue. rewrite Hr. by apply Nat.ltb_lt. Qed.

Lemma in_queue_relevant u : in_queue u = true -> is_queue_relevant (status u) = true.
Proof. unfold in_queue. intros H. by apply andb_true_iff in H as [? _]. Qed.

(** The swap branch of [move_queue_up] on a store with the invariant. *)
Lemma move_up_effect s x t :
  queue_inv s -> get_todo s x = Some t -> is_queue_relevant (status t) = true -> 1 < queue t ->
  exists u, In u (todos s) /\ in_queue u = true /\ queue u = queue t - 1 /\ id u <> x /\
    move_queue_up s x = write_queue (write_queue s (id u) (queue t)) x (queue t - 1).
Proof.
  intros (Hu & Hc & Hi) Ht Hr Hq.
  destruct (get_todo_spec s x t Ht) as [Htin Htx].
  unfold move_queue_up. rewrite Ht.
  replace (queue t <=? 1) with false by (symmetry; apply Nat.leb_gt; lia).
  rewrite Hr. cbn [negb].
  destruct (List.find _ (todos s)) as [u|] eqn:Hf.
  - apply find_some in Hf as [Huin Hcond].
    apply andb_true_iff in Hcond as [Hqu Hru]. apply Nat.eqb_eq in Hqu.
    exists u. split; [done|]. split; [apply in_queue_intro; [done|lia]|].
    split; [done|]. split; [|done].
    intros E. rewrite (ids_inj _ u t Hu Huin Htin) in Hqu; [lia|congruence].
  - exfalso.
    pose proof (queued_bound s t Hc Htin (in_queue_intro t Hr ltac:(lia))) as Hb.
    destruct (queued_at s (queue t - 1) Hc ltac:(lia)) as (v & Hv & Hqv & Hvq).
    pose proof (find_none _ _ Hf v Hv) as Hn. simpl in Hn.
    rewrite Hvq, Nat.eqb_refl, (in_queue_relevant v Hqv) in Hn. discriminate.
Qed.

(** The swap branch of [move_queue_down] on a store with the invariant. *)
Lemma move_down_effect s x t :
  queue_inv s -> get_todo s x = Some t -> is_queue_relevant (status t) = true -> 0 < queue t ->
  queue t < length (qvals (todos s)) ->
  exists u, In u (todos s) /\ in_queue u = true /\ queue u = queue t + 1 /\ id u <> x /\
    move_queue_down s x = write_queue (write_queue s (id u) (queue t)) x (queue t + 1).
Proof.
  intros (Hu & Hc & Hi) Ht Hr Hq HN.
  destruct (get_todo_spec s x t Ht) as [Htin Htx].
  unfold move_queue_down. rewrite Ht.
  replace (queue t =? 0) with false by (symmetry; apply Nat.eqb_neq; lia).
  rewrite Hr. cbn [negb].
  destruct (List.find _ (todos s)) as [u|] eqn:Hf.
  - apply find_some in Hf as [Huin Hcond].
    apply andb_true_iff in Hcond as [Hqu Hru]. apply Nat.eqb_eq in Hqu.
    exists u. split; [done|]. split; [apply in_queue_intro; [done|lia]|].
    split; [done|]. split; [|done].
    intros E. rewrite (ids_inj _ u t Hu Huin Htin) in Hqu; [lia|congruence].
  - exfalso.
    destruct (queued_at s (queue t + 1) Hc ltac:(lia)) as (v & Hv & Hqv & Hvq).
    pose proof (find_none _ _ Hf v Hv) as Hn. simpl in Hn.
    rewrite Hvq, Nat.eqb_refl, (in_queue_relevant v Hqv) in Hn. discriminate.
Qed.

(** X5: on a store with the queue invariant, [add_to_queue] on an active
    row already in the queue changes nothing; on an active row with queue 0
    it gives the row position [N + 1], behind the [N] queued rows, and
    leaves every other row as it was. *)
Theorem add_to_queue_appends s x t :
  queue_inv s -> get_todo s x = Some t -> is_queue_relevant (status t) = true ->
  (0 < queue t -> add_to_queue s x = s) /\
  (queue t = 0 ->
     option_map queue (get_todo (add_to_queue s x) x) = Some (S (length (qvals (todos s)))) /\
     (forall y, y <> x -> get_todo (add_to_queue s x) y = get_todo s y)).
Proof.
  intros (Hu & Hc & Hi) Ht Hr. unfold add_to_queue. rewrite Ht, Hr. cbn [negb].
  split.
  - intros Hq. replace (0 <? queue t) with true by (symmetry; by apply Nat.ltb_lt). done.
  - intros Hq. rewrite Hq. cbn [Nat.ltb Nat.leb]. split.
    + rewrite get_todo_write_queue, Ht. simpl. f_equal.
      rewrite (proj2 (proj2 (write_queue_fields _ _))), (max_queue_len s Hc). lia.
    + intros y Hy. by apply get_todo_write_other.
Qed.

Lemma add_to_queue_appends_witness :
  let s := mkStore [mk 1 PENDING 1; mk 2 PENDING 0; mk 3 PENDING 2] [] in
  (0 < queue (mk 2 PENDING 0) -> add_to_queue s 2 = s) /\
  (queue (mk 2 PENDING 0) = 0 ->
     option_map queue (get_todo (add_to_queue s 2) 2) = Some (S (length (qvals (todos s)))) /\
     (forall y, y <> 2 -> get_todo (add_to_queue s 2) y = get_todo s y)).
Proof.
  intros s. apply (add_to_queue_appends s 2 (mk 2 PENDING 0)).
  - split; [apply (bool_decide_unpack _); vm_compute; exact I|].
    split; [unfold contiguous; vm_compute; reflexivity|].
    unfold inactive_unqueued. repeat constructor; simpl; intros Hf; discriminate Hf.
  - reflexivity.
  - reflexivity.
Defined.

(** X6: on a store with the queue invariant, [move_queue_up] on an active
    row at position 1 changes nothing; on an active row at position
    [p > 1] it exchanges positions with the row [u] at [p - 1]: the row
    goes to [p - 1], [u] to [p], and every other row is left as it was. *)
Theorem move_queue_up_swaps s x t :
  queue_inv s -> get_todo s x = Some t -> is_queue_relevant (status t) = true -> 0 < queue t ->
  (queue t = 1 -> move_queue_up s x = s) /\
  (1 < queue t ->
   exists u, get_todo s (id u) = Some u /\ in_queue u = true /\ queue u = queue t - 1 /\
     id u <> x /\
     option_map queue (get_todo (move_queue_up s x) x) = Some (queue t - 1) /\
     option_map queue (get_todo (move_queue_up s x) (id u)) = Some (queue t) /\
     (forall y, y <> x -> y <> id u -> get_todo (move_queue_up s x) y = get_todo s y)).
Proof.
  intros Hinv Ht Hr Hq. split.
  - intros H1. unfold move_queue_up. rewrite Ht, H1. done.
  - intros H1. destruct (move_up_effect s x t Hinv Ht Hr H1) as (u & Hin & Hqu & Hu1 & Hne & ->).
    exists u. split; [unfold get_todo; apply find_key, Hin; apply Hinv|].
    do 3 (split; [done|]).
    split; [by apply (swap_get_x s x t)|].
    split; [apply swap_get_u; [apply Hinv|done|done]|].
    intros y Hy1 Hy2. by apply swap_get_other.
Qed.

Lemma move_queue_up_swaps_witness :
  (queue (mk 3 PENDING 3) = 1 -> move_queue_up abc 3 = abc) /\
  (1 < queue (mk 3 PENDING 3) ->
   exists u, get_todo abc (id u) = Some u /\ in_queue u = true /\
     queue u = queue (mk 3 PENDING 3) - 1 /\ id u <> 3 /\
     option_map queue (get_todo (move_queue_up abc 3) 3) = Some (queue (mk 3 PENDING 3) - 1) /\
     option_map queue (get_todo (move_queue_up abc 3) (id u)) = Some (queue (mk 3 PENDING 3)) /\
     (forall y, y <> 3 -> y <> id u -> get_todo (move_queue_up abc 3) y = get_todo abc y)).
Proof.
  apply (move_queue_up_swaps abc 3 (mk 3 PENDING 3)).
  - split; [apply (bool_decide_unpack _); vm_compute; exact I|].
    split; [unfold contiguous; vm_compute; reflexivity|].
    unfold inactive_unqueued. repeat constructor; simpl; intros Hf; discriminate Hf.
  - reflexivity.
  - reflexivity.
  - simpl. lia.
Defined.

(** X7: on a store with the queue invariant and [N] queued rows,
    [move_queue_down] on an active row at position [N] changes nothing; on
    an active row at position [p < N] it exchanges positions with the row
    [u] at [p + 1], and every other row is left as it was. *)
Theorem move_queue_down_swaps s x t :
  queue_inv s -> get_todo s x = Some t -> is_queue_relevant (status t) = true -> 0 < queue t ->
  (queue t = length (qvals (todos s)) -> move_queue_down s x = s) /\
  (queue t < length (qvals (todos s)) ->
   exists u, get_todo s (id u) = Some u /\ in_queue u = true /\ queue u = queue t + 1 /\
     id u <> x /\
     option_map queue (get_todo (move_queue_down s x) x) = Some (queue t + 1) /\
     option_map queue (get_todo (move_queue_down s x) (id u)) = Some (queue t) /\
     (forall y, y <> x -> y <> id u -> get_todo (move_queue_down s x) y = get_todo s y)).
Proof.
  intros Hinv Ht Hr Hq. pose proof Hinv as (Hu & Hc & Hi). split.
  - intros HN. unfold move_queue_down. rewrite Ht.
    replace (queue t =? 0) with false by (symmetry; apply Nat.eqb_neq; lia).
    rewrite Hr. cbn [negb].
    destruct (List.find _ (todos s)) as [u|] eqn:Hf.
    + exfalso. apply find_some in Hf as [Huin Hcond].
      apply andb_true_iff in Hcond as [Hqu Hru]. apply Nat.eqb_eq in Hqu.
      pose proof (queued_bound s u Hc Huin (in_queue_intro u Hru ltac:(lia))). lia.
    + by apply normalize_fixed.
  - intros HN. destruct (move_down_effect s x t Hinv Ht Hr Hq HN) as (u & Hin & Hqu & Hu1 & Hne & ->).
    exists u. split; [unfold get_todo; by apply find_key|].
    do 3 (split; [done|]).
    split; [by apply (swap_get_x s x t)|].
    split; [by apply swap_get_u|].
    intros y Hy1 Hy2. by apply swap_get_other.
Qed.

Lemma move_queue_down_swaps_witness :
  (queue (mk 3 PENDING 3) = length (qvals (todos abc)) -> move_queue_down abc 3 = abc) /\
  (queue (mk 3 PENDING 3) < length (qvals (todos abc)) ->
   exists u, get_todo abc (id u) = Some u /\ in_queue u = true /\
     queue u = queue (mk 3 PENDING 3) + 1 /\ id u <> 3 /\
     option_map queue (get_todo (move_queue_down abc 3) 3) = Some (queue (mk 3 PENDING 3) + 1) /\
     option_map queue (get_todo (move_queue_down abc 3) (id u)) = Some (queue (mk 3 PENDING 3)) /\
     (forall y, y <> 3 -> y <> id u -> get_todo (move_queue_down abc 3) y = get_todo abc y)).
Proof.
  apply (move_queue_down_swaps abc 3 (mk 3 PENDING 3)).
  - split; [apply (bool_decide_unpack _); vm_compute; exact I|].
    split; [unfold contiguous; vm_compute; reflexivity|].
    unfold inactive_unqueued. repeat constructor; simpl; intros Hf; discriminate Hf.
  - reflexivity.
  - reflexivity.
  - simpl. lia.
Defined.

(** X8: on a store with the queue invariant, [move_queue_down] right after
    [move_queue_up] of the same active row at a position [> 1] gives every
    row its queue value back. *)
Theorem move_down_undoes_move_up s x t :
  queue_inv s -> get_todo s x = Some t -> is_queue_relevant (status t) = true -> 1 < queue t ->
  forall y, option_map queue (get_todo (move_queue_down (move_queue_up s x) x) y)
            = option_map queue (get_todo s y).
Proof.
  intros Hinv Ht Hr Hq y. pose proof Hinv as (Hu & Hc & Hi).
  pose proof (move_queue_up_inv s x Hinv) as Hinv1.
  destruct (move_up_effect s x t Hinv Ht Hr Hq) as (u & Hin & Hqu & Hu1 & Hne & E).
  rewrite E in Hinv1 |- *.
  set (s1 := write_queue (write_queue s (id u) (queue t)) x (queue t - 1)) in *.
  pose proof Hinv1 as (Hu' & Hc' & Hi').
  set (t1 := flush t (with_queue t (queue t - 1))).
  assert (Ht1 : get_todo s1 x = Some t1).
  { unfold s1. rewrite get_todo_write_queue, get_todo_write_other, Ht by congruence. done. }
  pose proof (write_queue_fields t (queue t - 1)) as (_ & Hst1 & Hqt1). fold t1 in Hst1, Hqt1.
  set (u1 := flush u (with_queue u (queue t))).
  assert (Hu1s : get_todo s1 (id u) = Some u1).
  { unfold s1. rewrite get_todo_write_other by done. rewrite get_todo_write_queue.
    unfold get_todo at 1. rewrite (find_key _ _ Hu Hin). done. }
  pose proof (write_queue_fields u (queue t)) as (_ & Hsu1 & Hqu1). fold u1 in Hsu1, Hqu1.
  assert (Hq1 : in_queue u1 = true).
  { apply in_queue_intro; [rewrite Hsu1; by apply in_queue_relevant|lia]. }
  destruct (get_todo_spec s1 (id u) u1 Hu1s) as [Hu1in _].
  pose proof (queued_bound s1 u1 Hc' Hu1in Hq1) as Hb.
  destruct (move_down_effect s1 x t1 Hinv1 Ht1 ltac:(by rewrite Hst1) ltac:(lia) ltac:(lia))
    as (w & Hwin & Hqw & Hw1 & Hwne & ->).
  assert (Hwu : w = u1) by (apply (queued_unique s1); auto; lia).
  subst w.
  pose proof (write_queue_fields u (queue t)) as (Hid1 & _ & _). fold u1 in Hid1.
  destruct (Nat.eq_dec y x) as [->|Hyx].
  - rewrite (swap_get_x s1 x t1 u1 _ _ Ht1) by congruence. rewrite Ht. simpl. f_equal. lia.
  - destruct (Nat.eq_dec y (id u)) as [->|Hyu].
    + rewrite <- Hid1. rewrite (swap_get_u s1 x u1) by (done || congruence).
      rewrite Hid1. unfold get_todo. rewrite (find_key _ _ Hu Hin). simpl. f_equal. lia.
    + rewrite swap_get_other by congruence. unfold s1. by rewrite swap_get_other.
Qed.

Lemma move_down_undoes_move_up_witness :
  option_map queue (get_todo (move_queue_down (move_queue_up abc 3) 3) 2)
    = option_map queue (get_todo abc 2) /\
  option_map queue (get_todo (move_queue_down (move_queue_up abc 3) 3) 3)
    = option_map queue (get_todo abc 3).
Proof.
  assert (Hinv : queue_inv abc).
  { split; [apply (bool_decide_unpack _); vm_compute; exact I|].
    split; [unfold contiguous; vm_compute; reflexivity|].
    unfold inactive_unqueued. repeat constructor; simpl; intros Hf; discriminate Hf. }
  split.
  - apply (move_down_undoes_move_up abc 3 (mk 3 PENDING 3)); [exact Hinv|reflexivity|reflexivity|simpl; lia].
  - apply (move_down_undoes_move_up abc 3 (mk 3 PENDING 3)); [exact Hinv|reflexivity|reflexivity|simpl; lia].
Defined.

(* ------------------------------------------------------------------ *)
(** ** Creating rows *)

Lemma foldr_max_ge (l : list nat) y : In y l -> y <= foldr Nat.max 0 l.
Proof. induction l as [|a l IH]; simpl; [done|]. intros [->|H]; [lia|]. specialize (IH H). lia. Qed.

Lemma next_id_fresh s : ~ In (next_todo_id s) (map id (todos s)).
Proof. unfold next_todo_id. intros H. apply foldr_max_ge in H. lia. Qed.

Lemma qvals_app l1 l2 : qvals (l1 ++ l2) = qvals l1 ++ qvals l2.
Proof.
  induction l1 as [|a l1 IH]; [done|]. simpl app. rewrite qvals_cons, IH, (qvals_cons a l1).
  by rewrite app_assoc.
Qed.

Lemma create_store s c :
  fst (create_todo s c) = mkStore (todos s ++ [snd (create_todo s c)]) (todo_dependencies s).
Proof. done. Qed.

Lemma create_inv_iff s c :
  queue_inv s ->
  (queue_inv (fst (create_todo s c)) <->
   is_queue_relevant (c_status c) = false \/ c_queue c = 0 \/
   c_queue c = S (length (qvals (todos s)))).
Proof.
  intros (Hu & Hc & Hi). rewrite create_store.
  set (row := snd (create_todo s c)).
  assert (Hrs : status row = c_status c) by done.
  assert (Hrq : queue row = if is_queue_relevant (c_status c) then c_queue c else 0) by done.
  assert (Hu' : ids_unique (mkStore (todos s ++ [row]) (todo_dependencies s))).
  { unfold ids_unique. simpl. rewrite map_app. apply NoDup_app. split; [done|]. split.
    - intros y Hy Hy'. apply list_elem_of_In in Hy. apply list_elem_of_singleton in Hy'.
      subst y. by apply (next_id_fresh s).
    - apply NoDup_singleton. }
  assert (Hi' : inactive_unqueued (mkStore (todos s ++ [row]) (todo_dependencies s))).
  { unfold inactive_unqueued. simpl. apply Forall_app. split; [done|].
    apply Forall_singleton. rewrite Hrs, Hrq. intros ->. done. }
  unfold queue_inv, contiguous. simpl. rewrite qvals_app.
  destruct (in_queue row) eqn:Hq.
  - rewrite (qvals_in row Hq).
    unfold in_queue in Hq. rewrite Hrs, Hrq in Hq.
    destruct (is_queue_relevant (c_status c)) eqn:Hr; [|done].
    apply Nat.ltb_lt in Hq. rewrite Hrq. unfold contiguous in Hc.
    rewrite length_app. simpl length. rewrite Nat.add_1_r, seq_S. simpl Nat.add.
    split.
    + intros (_ & Hc' & _). right; right.
      rewrite Hc, length_seq in Hc'. apply Permutation_app_inv_l in Hc'.
      apply Permutation_length_1 in Hc'. done.
    + intros [Hf|[Hz|HN]]; [done|lia|]. split; [done|]. split; [|done].
      rewrite HN. etrans; [apply Permutation_app_tail; exact Hc|]. done.
  - rewrite (qvals_out row Hq), app_nil_r. split; [intros _|intros _; done].
    unfold in_queue in Hq. rewrite Hrs, Hrq in Hq.
    destruct (is_queue_relevant (c_status c)); [|by left].
    right; left. simpl in Hq. apply Nat.ltb_ge in Hq. lia.
Qed.

(** X9: [create_todo] gives the new row an id no row holds yet, on every
    store; and on a store with the queue invariant it keeps the invariant exactly when the
    requested queue is dropped (inactive status or queue 0) or places the
    row right behind the [N] queued rows ([queue = N + 1]). *)
Theorem create_todo_queue_inv s c :
  ~ In (id (snd (create_todo s c))) (map id (todos s)) /\
  (queue_inv s ->
   (queue_inv (fst (create_todo s c)) <->
    is_queue_relevant (c_status c) = false \/ c_queue c = 0 \/
    c_queue c = S (length (qvals (todos s))))).
Proof. split; [apply next_id_fresh|intros H; by apply create_inv_iff]. Qed.

Lemma create_todo_queue_inv_witness :
  ~ In (id (snd (create_todo abc (mkCreate PENDING 7 None)))) (map id (todos abc)) /\
  (queue_inv (fst (create_todo abc (mkCreate PENDING 7 None))) <->
   is_queue_relevant (c_status (mkCreate PENDING 7 None)) = false \/
   c_queue (mkCreate PENDING 7 None) = 0 \/
   c_queue (mkCreate PENDING 7 None) = S (length (qvals (todos abc)))).
Proof.
  split; [apply (proj1 (create_todo_queue_inv abc (mkCreate PENDING 7 None)))|].
  apply (proj2 (create_todo_queue_inv abc (mkCreate PENDING 7 None))).
  split; [apply (bool_decide_unpack _); vm_compute; exact I|].
  split; [unfold contiguous; vm_compute; reflexivity|].
  unfold inactive_unqueued. repeat constructor; simpl; intros Hf; discriminate Hf.
Defined.

(** X10: [add_concern] on a missing parent id returns [None] and leaves the
    store as it was; on an existing parent whose prefixed title is longer
    than 500 characters, [TodoCreate] raises [ValidationError] and the
    store is left as it was; otherwise it appends one row with that parent,
    status [PENDING], queue 0 and a fresh id, created with the prefixed
    title, and returns it.  In every case the queue invariant is kept. *)
Theorem add_concern_spec s p title :
  (get_todo s p = None -> add_concern s p title = (s, ConcernNoParent)) /\
  (get_todo s p <> None -> 500 < String.length (concern_title title) ->
   add_concern s p title = (s, ConcernValidationError)) /\
  (get_todo s p <> None -> String.length (concern_title title) <= 500 ->
   exists row, add_concern s p title =
     (mkStore (todos s ++ [row]) (todo_dependencies s), ConcernAdded row (concern_title title)) /\
     parent_id row = Some p /\ status row = PENDING /\ queue row = 0 /\
     ~ In (id row) (map id (todos s))) /\
  (queue_inv s -> queue_inv (fst (add_concern s p title))).
Proof.
  assert (Hmin : 1 <= String.length (concern_title title)).
  { unfold concern_title. destruct (String.prefix "[Concern]" title) eqn:E.
    - destruct title as [|a t]; [discriminate E|]. simpl. lia.
    - simpl. lia. }
  unfold add_concern, title_valid. split; [intros ->; done|]. split; [|split].
  - intros Hp Hl. destruct (get_todo s p); [|done].
    replace (String.length (concern_title title) <=? 500) with false
      by (symmetry; apply Nat.leb_gt; lia).
    by rewrite andb_false_r.
  - intros Hp Hl. destruct (get_todo s p); [|done].
    replace (1 <=? String.length (concern_title title)) with true
      by (symmetry; apply Nat.leb_le; lia).
    replace (String.length (concern_title title) <=? 500) with true
      by (symmetry; apply Nat.leb_le; lia).
    exists (snd (create_todo s (mkCreate PENDING 0 (Some p)))).
    split; [done|]. do 3 (split; [done|]). apply next_id_fresh.
  - intros Hinv. destruct (get_todo s p); [|done].
    destruct (_ && _); [|done]. cbn [fst].
    apply (proj2 (create_inv_iff s _ Hinv)). right; left. done.
Qed.

Lemma add_concern_spec_witness :
  let title := "fix the parser" in
  (get_todo abc 2 = None -> add_concern abc 2 title = (abc, ConcernNoParent)) /\
  (get_todo abc 2 <> None -> 500 < String.length (concern_title title) ->
   add_concern abc 2 title = (abc, ConcernValidationError)) /\
  (get_todo abc 2 <> None -> String.length (concern_title title) <= 500 ->
   exists row, add_concern abc 2 title =
     (mkStore (todos abc ++ [row]) (todo_dependencies abc), ConcernAdded row (concern_title title)) /\
     parent_id row = Some 2 /\ status row = PENDING /\ queue row = 0 /\
     ~ In (id row) (map id (todos abc))) /\
  (queue_inv abc -> queue_inv (fst (add_concern abc 2 title))).
Proof. intros title. apply (add_concern_spec abc 2 title). Defined.

(* ------------------------------------------------------------------ *)
(** ** Updating rows *)

Lemma update_deps s x u :
  todo_dependencies (fst (update_todo s x u)) = todo_dependencies s.
Proof.
  unfold update_todo. destruct (get_todo s x); [|done]. cbv zeta.
  destruct (_ || _); done.
Qed.

Lemma get_todo_normalize_status s y :
  option_map status (get_todo (normalize_queue s) y) = option_map status (get_todo s y).
Proof.
  rewrite get_todo_normalize. destruct (get_todo s y); [|done]. simpl. f_equal.
  apply normalize_row_fields.
Qed.

Lemma update_status_get s x u y :
  option_map status (get_todo (fst (update_todo s x u)) y) =
  match get_todo s x with
  | Some t => if y =? x then Some (status (apply_update t u)) else option_map status (get_todo s y)
  | None => option_map status (get_todo s y)
  end.
Proof.
  unfold update_todo. destruct (get_todo s x) as [t|] eqn:Ht; [|done]. cbv zeta.
  destruct (get_todo_spec s x t Ht) as [_ Htx].
  set (t1 := apply_update t u).
  set (t2 := if negb (is_queue_relevant (status t1)) && negb (queue t1 =? 0) then with_queue t1 0 else t1).
  assert (Hs2 : status t2 = status t1) by (subst t2; by destruct (_ && _)).
  assert (Hi2 : id t2 = x) by (subst t2 t1; destruct (_ && _); simpl; rewrite apply_update_id; done).
  fold (put_row s x t2).
  assert (E : option_map status (get_todo (put_row s x t2) y) =
              if y =? x then Some (status t1) else option_map status (get_todo s y)).
  { destruct (Nat.eqb_spec y x) as [->|Hne].
    - rewrite get_todo_put_row, Ht by done. simpl. f_equal.
      rewrite (proj1 (proj2 (flush_fields t t2))). done.
    - unfold get_todo, put_row. simpl. rewrite find_put_other; [done|done|].
      intros r _. by rewrite (proj1 (flush_fields r t2)). }
  destruct (_ || _); cbn [fst]; [rewrite get_todo_normalize_status|]; exact E.
Qed.

(** X11: [update_todo] never touches the dependency table, gives the row
    [x] the status of the update (its old status when none is sent), and
    leaves the status of every other row as it was; on a missing id it
    changes nothing and returns [None]. *)
Theorem update_todo_statuses s x u :
  todo_dependencies (fst (update_todo s x u)) = todo_dependencies s /\
  (get_todo s x = None -> update_todo s x u = (s, None)) /\
  (forall t, get_todo s x = Some t ->
     option_map status (snd (update_todo s x u)) =
       Some (match u_status u with Some st => st | None => status t end)) /\
  (forall y, y <> x ->
     option_map status (get_todo (fst (update_todo s x u)) y) = option_map status (get_todo s y)).
Proof.
  split; [apply update_deps|]. split; [unfold update_todo; by intros ->|]. split.
  - intros t Ht. rewrite update_snd, update_status_get, Ht, Nat.eqb_refl.
    unfold apply_update. destruct (u_status u), (u_queue u); done.
  - intros y Hy. rewrite update_status_get. destruct (get_todo s x); [|done].
    by replace (y =? x) with false by (symmetry; by apply Nat.eqb_neq).
Qed.

Lemma update_todo_statuses_witness :
  todo_dependencies (fst (update_todo abc 2 (mkUpdate (Some COMPLETED) None))) = todo_dependencies abc /\
  (get_todo abc 2 = None -> update_todo abc 2 (mkUpdate (Some COMPLETED) None) = (abc, None)) /\
  (forall t, get_todo abc 2 = Some t ->
     option_map status (snd (update_todo abc 2 (mkUpdate (Some COMPLETED) None))) =
       Some (match u_status (mkUpdate (Some COMPLETED) None) with Some st => st | None => status t end)) /\
  (forall y, y <> 2 ->
     option_map status (get_todo (fst (update_todo abc 2 (mkUpdate (Some COMPLETED) None))) y)
     = option_map status (get_todo abc y)).
Proof. apply (update_todo_statuses abc 2 (mkUpdate (Some COMPLETED) None)). Defined.

(** X12: marking any row [COMPLETED] through [update_todo] never makes a
    task with met dependencies unmet: [check_dependencies_met] stays true. *)
Theorem complete_keeps_ready s x y q :
  check_dependencies_met s x = true ->
  check_dependencies_met (fst (update_todo s y (mkUpdate (Some COMPLETED) q))) x = true.
Proof.
  rewrite !check_forallb. unfold get_dependencies. rewrite update_deps.
  rewrite !forallb_forall. intros H d Hd. specialize (H d Hd).
  pose proof (update_status_get s y (mkUpdate (Some COMPLETED) q) (depends_on_id d)) as E.
  destruct (get_todo (fst (update_todo s y _)) (depends_on_id d)) as [r|];
    [|done]. cbn [option_map] in E.
  destruct (get_todo s y) as [t|].
  - destruct (depends_on_id d =? y).
    + injection E as ->. unfold apply_update. by destruct q.
    + destruct (get_todo s (depends_on_id d)) as [r'|]; [|done].
      injection E as E. simpl in *. by rewrite E.
  - destruct (get_todo s (depends_on_id d)) as [r'|]; [|done].
    injection E as E. simpl in *. by rewrite E.
Qed.

Lemma complete_keeps_ready_witness :
  let s := mkStore [mk 1 COMPLETED 0; mk 2 PENDING 1] [mkDep 1 2 1] in
  check_dependencies_met s 2 = true /\
  check_dependencies_met (fst (update_todo s 1 (mkUpdate (Some COMPLETED) None))) 2 = true.
Proof.
  intros s. split; [reflexivity|]. apply (complete_keeps_ready s 2 1 None). reflexivity.
Defined.

(* ------------------------------------------------------------------ *)
(** ** Dependency edges *)

(** No edge lies on a cycle: from its prerequisite no path leads back. *)
Definition acyclic (E : list TodoDependency) : Prop :=
  forall d, In d E -> ~ reach E (depends_on_id d) (todo_id d).

Lemma reach_incl E1 E2 u v :
  (forall d, In d E1 -> In d E2) -> reach E1 u v -> reach E2 u v.
Proof.
  intros Hi. induction 1 as [x|x y z d Hd Hx Hy _ IH]; [constructor|].
  eapply reach_step; eauto.
Qed.

Lemma reach_trans E u v w : reach E u v -> reach E v w -> reach E u w.
Proof. induction 1 as [x|x y z d Hd Hx Hy _ IH]; [done|]. intros H. eapply reach_step; eauto. Qed.

Lemma reach_snoc_split E d u v :
  reach (E ++ [d]) u v ->
  reach E u v \/ (reach E u (todo_id d) /\ reach (E ++ [d]) (depends_on_id d) v).
Proof.
  induction 1 as [x|x y z d' Hd Hx Hy R IH].
  - left. constructor.
  - apply in_app_or in Hd as [Hd|[<-|[]]].
    + destruct IH as [IH|[IH1 IH2]]; [left|right]; [eapply reach_step; eauto|].
      split; [eapply reach_step; eauto|done].
    + right. split; [rewrite Hx; constructor|by rewrite <- Hy in R].
Qed.

Lemma create_dependency_cases s a b :
  (a = b /\ create_dependency s a b = (s, Raised SelfDependency)) \/
  (a <> b /\ (get_todo s a = None \/ get_todo s b = None) /\
     create_dependency s a b = (s, Returned None)) \/
  (a <> b /\ reach (todo_dependencies s) b a /\
     create_dependency s a b = (s, Raised CycleDetected)) \/
  (exists e, In e (todo_dependencies s) /\ todo_id e = a /\ depends_on_id e = b /\
     create_dependency s a b = (s, Returned (Some e))) \/
  (a <> b /\ (exists ta tb, get_todo s a = Some ta /\ get_todo s b = Some tb) /\
     ~ reach (todo_dependencies s) b a /\
     (forall e, In e (todo_dependencies s) -> ~ (todo_id e = a /\ depends_on_id e = b)) /\
     create_dependency s a b =
       (mkStore (todos s) (todo_dependencies s ++ [mkDep (next_dep_id (todo_dependencies s)) a b]),
        Returned (Some (mkDep (next_dep_id (todo_dependencies s)) a b)))).
Proof.
  unfold create_dependency. destruct (Nat.eqb_spec a b) as [->|Hab]; [by left|].
  destruct (get_todo s a) as [ta|] eqn:Ha; [|right; left; auto].
  destruct (get_todo s b) as [tb|] eqn:Hb; [|right; left; auto].
  destruct (would_create_cycle _ b a) eqn:Hc.
  - right; right; left. apply would_create_cycle_spec in Hc. auto.
  - destruct (List.find _ _) as [e|] eqn:Hf.
    + right; right; right; left. exists e. apply find_some in Hf as [He Hk].
      apply andb_true_iff in Hk as [H1 H2]. apply Nat.eqb_eq in H1, H2. auto.
    + right; right; right; right. split; [done|]. split; [eauto|]. split.
      { intros R. apply would_create_cycle_spec in R. congruence. }
      split; [|done]. intros e He [H1 H2].
      pose proof (find_none _ _ Hf e He) as Hn. simpl in Hn.
      rewrite H1, H2, !Nat.eqb_refl in Hn. done.
Qed.

(** Acyclicity decided edge by edge with [_would_create_cycle]. *)
Lemma acyclic_check E :
  forallb (fun d => negb (would_create_cycle E (depends_on_id d) (todo_id d))) E = true ->
  acyclic E.
Proof.
  rewrite forallb_forall. intros H d Hd R. specialize (H d Hd).
  apply would_create_cycle_spec in R. rewrite R in H. discriminate H.
Qed.

(** X13: [create_dependency] keeps the dependency graph acyclic: if no
    edge lies on a cycle before the call, none does after it, whatever the
    call returns or raises. *)
Theorem create_dependency_acyclic s a b :
  acyclic (todo_dependencies s) -> acyclic (todo_dependencies (fst (create_dependency s a b))).
Proof.
  intros Hac.
  destruct (create_dependency_cases s a b)
    as [[_ ->]|[[_ [_ ->]]|[[_ [_ ->]]|[(e & _ & _ & _ & ->)|(Hab & _ & Hnr & _ & ->)]]]];
    try exact Hac.
  simpl. set (E := todo_dependencies s) in *. set (d := mkDep (next_dep_id E) a b).
  assert (Hba : ~ reach (E ++ [d]) b a).
  { intros R. apply reach_snoc_edge in R as [R|R]; by apply Hnr. }
  intros d' Hd' R. apply in_app_or in Hd' as [Hd'|[<-|[]]].
  - apply reach_snoc_split in R as [R|[R1 R2]]; [by apply (Hac d' Hd')|].
    apply Hba. eapply reach_trans; [exact R2|].
    eapply reach_step; [apply in_or_app; left; exact Hd'|done|done|].
    apply (reach_incl E); [intros x Hx; apply in_or_app; by left|exact R1].
  - by apply Hba.
Qed.

Lemma create_dependency_acyclic_witness :
  acyclic [mkDep 1 2 3] /\
  acyclic (todo_dependencies (fst (create_dependency (mkStore (todos abc) [mkDep 1 2 3]) 1 2))).
Proof.
  assert (H : acyclic [mkDep 1 2 3]) by (apply acyclic_check; reflexivity).
  split; [exact H|]. apply (create_dependency_acyclic (mkStore (todos abc) [mkDep 1 2 3]) 1 2).
  exact H.
Defined.

(** X14: [create_dependency] raises [SelfDependency] on [a = b] and
    returns [None] on a missing row, both without a write; it never
    changes the todos, adds at most the one edge [a -> b] (with a fresh
    dependency id), and the edge it returns is listed afterwards by
    [get_dependencies a] and by [get_dependents b]. *)
Theorem create_dependency_effect s a b :
  (a = b -> create_dependency s a b = (s, Raised SelfDependency)) /\
  (a <> b -> get_todo s a = None \/ get_todo s b = None ->
     create_dependency s a b = (s, Returned None)) /\
  todos (fst (create_dependency s a b)) = todos s /\
  (todo_dependencies (fst (create_dependency s a b)) = todo_dependencies s \/
   exists d, todo_dependencies (fst (create_dependency s a b)) = todo_dependencies s ++ [d] /\
     todo_id d = a /\ depends_on_id d = b /\
     ~ In (dep_id d) (map dep_id (todo_dependencies s))) /\
  (forall d, snd (create_dependency s a b) = Returned (Some d) ->
     In d (get_dependencies (fst (create_dependency s a b)) a) /\
     In d (get_dependents (fst (create_dependency s a b)) b)).
Proof.
  assert (Hget : forall s' d, In d (todo_dependencies s') -> todo_id d = a -> depends_on_id d = b ->
                   In d (get_dependencies s' a) /\ In d (get_dependents s' b)).
  { intros s' d Hd H1 H2. unfold get_dependencies, get_dependents.
    rewrite !filter_In, H1, H2, !Nat.eqb_refl. auto. }
  split; [intros ->; unfold create_dependency; by rewrite Nat.eqb_refl|].
  split.
  { intros Hab Hn. unfold create_dependency.
    replace (a =? b) with false by (symmetry; by apply Nat.eqb_neq).
    destruct Hn as [-> | ->]; [done|]. by destruct (get_todo s a). }
  destruct (create_dependency_cases s a b)
    as [[_ ->]|[[_ [_ ->]]|[[_ [_ ->]]|[(e & He & H1 & H2 & ->)|(Hab & _ & Hnr & _ & ->)]]]];
    simpl; try (split; [done|split; [by left|intros d Hd; discriminate Hd]]).
  - split; [done|]. split; [by left|]. intros d Hd. injection Hd as <-. auto.
  - split; [done|]. split.
    + right. eexists. split; [done|]. split; [done|]. split; [done|].
      simpl. unfold next_dep_id. intros H. apply foldr_max_ge in H. lia.
    + intros d Hd. injection Hd as <-. apply Hget; [|done|done].
      simpl. apply in_or_app. right. by left.
Qed.

Lemma create_dependency_effect_witness :
  (1 = 2 -> create_dependency dep_store 1 2 = (dep_store, Raised SelfDependency)) /\
  (1 <> 2 -> get_todo dep_store 1 = None \/ get_todo dep_store 2 = None ->
     create_dependency dep_store 1 2 = (dep_store, Returned None)) /\
  todos (fst (create_dependency dep_store 1 2)) = todos dep_store /\
  (todo_dependencies (fst (create_dependency dep_store 1 2)) = todo_dependencies dep_store \/
   exists d, todo_dependencies (fst (create_dependency dep_store 1 2)) = todo_dependencies dep_store ++ [d] /\
     todo_id d = 1 /\ depends_on_id d = 2 /\
     ~ In (dep_id d) (map dep_id (todo_dependencies dep_store))) /\
  (forall d, snd (create_dependency dep_store 1 2) = Returned (Some d) ->
     In d (get_dependencies (fst (create_dependency dep_store 1 2)) 1) /\
     In d (get_dependents (fst (create_dependency dep_store 1 2)) 2)).
Proof. apply (create_dependency_effect dep_store 1 2). Defined.

(** X15: [create_dependency] keeps the dependency ids unique and never
    stores a second edge for the same pair [todo_id -> depends_on_id]. *)
Theorem create_dependency_unique s a b :
  NoDup (map dep_id (todo_dependencies s)) ->
  NoDup (map (fun d => (todo_id d, depends_on_id d)) (todo_dependencies s)) ->
  NoDup (map dep_id (todo_dependencies (fst (create_dependency s a b)))) /\
  NoDup (map (fun d => (todo_id d, depends_on_id d)) (todo_dependencies (fst (create_dependency s a b)))).
Proof.
  intros H1 H2.
  destruct (create_dependency_cases s a b)
    as [[_ ->]|[[_ [_ ->]]|[[_ [_ ->]]|[(e & _ & _ & _ & ->)|(Hab & _ & Hnr & Hnew & ->)]]]];
    try done.
  simpl. rewrite !map_app. split; apply NoDup_app; (split; [done|]); split;
    [| apply NoDup_singleton| |apply NoDup_singleton]; intros y Hy Hy';
    apply list_elem_of_In in Hy; apply list_elem_of_singleton in Hy'; subst y.
  - unfold next_dep_id in Hy. apply foldr_max_ge in Hy. simpl in Hy. lia.
  - apply in_map_iff in Hy as (e & He & Hin). injection He as E1 E2.
    by apply (Hnew e Hin).
Qed.

Lemma create_dependency_unique_witness :
  NoDup (map dep_id (todo_dependencies (fst (create_dependency dep_store 1 2)))) /\
  NoDup (map (fun d => (todo_id d, depends_on_id d))
           (todo_dependencies (fst (create_dependency dep_store 1 2)))).
Proof.
  apply (create_dependency_unique dep_store 1 2);
    apply (bool_decide_unpack _); vm_compute; exact I.
Defined.

(** X16: [delete_dependency] returns false exactly when no edge has the
    given id; it never changes the todos, and afterwards the edges are the
    old ones without those with that id (all of them when it returned
    false). *)
Theorem delete_dependency_spec s i :
  (snd (delete_dependency s i) = false <-> ~ In i (map dep_id (todo_dependencies s))) /\
  (snd (delete_dependency s i) = false -> fst (delete_dependency s i) = s) /\
  todos (fst (delete_dependency s i)) = todos s /\
  (forall d, In d (todo_dependencies (fst (delete_dependency s i))) <->
             In d (todo_dependencies s) /\ dep_id d <> i).
Proof.
  unfold delete_dependency.
  destruct (List.find _ _) as [e|] eqn:Hf; simpl.
  - apply find_some in Hf as [He Hi]. apply Nat.eqb_eq in Hi.
    split; [split; [done|intros Hn; exfalso; apply Hn, in_map_iff; eauto]|].
    split; [done|]. split; [done|]. intros d. rewrite filter_In, negb_true_iff.
    by rewrite Nat.eqb_neq.
  - assert (Hn : forall d, In d (todo_dependencies s) -> dep_id d <> i).
    { intros d Hd E. pose proof (find_none _ _ Hf d Hd) as H. simpl in H.
      rewrite E, Nat.eqb_refl in H. done. }
    split; [split; [intros _ Hin|done]|].
    { apply in_map_iff in Hin as (d & E & Hd). by apply (Hn d Hd). }
    split; [done|]. split; [done|]. intros d. split; [|tauto]. intros Hd. auto.
Qed.

Lemma delete_dependency_spec_witness :
  (snd (delete_dependency dep_store 1) = false <-> ~ In 1 (map dep_id (todo_dependencies dep_store))) /\
  (snd (delete_dependency dep_store 1) = false -> fst (delete_dependency dep_store 1) = dep_store) /\
  todos (fst (delete_dependency dep_store 1)) = todos dep_store /\
  (forall d, In d (todo_dependencies (fst (delete_dependency dep_store 1))) <->
             In d (todo_dependencies dep_store) /\ dep_id d <> 1).
Proof. apply (delete_dependency_spec dep_store 1). Defined.

(** X17: deleting a dependency never makes a ready task blocked
    ([check_dependencies_met] stays true) and keeps the graph acyclic. *)
Theorem delete_dependency_monotone s i x :
  (check_dependencies_met s x = true ->
   check_dependencies_met (fst (delete_dependency s i)) x = true) /\
  (acyclic (todo_dependencies s) -> acyclic (todo_dependencies (fst (delete_dependency s i)))).
Proof.
  assert (Hsub : forall d, In d (todo_dependencies (fst (delete_dependency s i))) ->
                           In d (todo_dependencies s)).
  { intros d. unfold delete_dependency. destruct (List.find _ _); simpl; [|done].
    rewrite filter_In. tauto. }
  assert (Ht : todos (fst (delete_dependency s i)) = todos s).
  { unfold delete_dependency. by destruct (List.find _ _). }
  split.
  - rewrite !check_forallb. rewrite !forallb_forall. intros H d Hd.
    unfold get_todo. rewrite Ht. apply H.
    unfold get_dependencies in *. apply filter_In in Hd as [Hd Hx].
    apply filter_In. split; [by apply Hsub|done].
  - intros Hac d Hd R. apply (Hac d (Hsub d Hd)). by apply (reach_incl _ _ _ _ Hsub).
Qed.

Lemma delete_dependency_monotone_witness :
  (check_dependencies_met dep_store 1 = true ->
   check_dependencies_met (fst (delete_dependency dep_store 1)) 1 = true) /\
  (acyclic (todo_dependencies dep_store) ->
   acyclic (todo_dependencies (fst (delete_dependency dep_store 1)))).
Proof. apply (delete_dependency_monotone dep_store 1 1). Defined.

(* ------------------------------------------------------------------ *)
(** ** Relates-to links *)

(** The ids the loop of [set_relates_to_ids] adds, in the order it adds them. *)
Fixpoint added_ids (x : nat) (seen : list nat) (ids : list nat) : list nat :=
  match ids with
  | [] => []
  | rid :: rest =>
      if rid =? x then added_ids x seen rest
      else if mem rid seen then added_ids x seen rest
      else rid :: added_ids x (rid :: seen) rest
  end.

Lemma get_rel_app R1 R2 z :
  get_relates_to_ids (R1 ++ R2) z = get_relates_to_ids R1 z ++ get_relates_to_ids R2 z.
Proof. unfold get_relates_to_ids. by rewrite List.filter_app, map_app. Qed.

Lemma filter_filter_and {A} (f g : A -> bool) l :
  List.filter f (List.filter g l) = List.filter (fun a => g a && f a) l.
Proof. induction l as [|a l IH]; simpl; [done|]. destruct (g a); simpl; [destruct (f a)|]; simpl; rewrite ?IH; done. Qed.

Lemma filter_none {A} (f : A -> bool) l :
  (forall a, In a l -> f a = false) -> List.filter f l = [].
Proof.
  induction l as [|a l IH]; intros H; simpl; [done|].
  rewrite (H a (or_introl eq_refl)). apply IH. intros b Hb. apply H. by right.
Qed.

Lemma add_relations_get x seen R ids z :
  get_relates_to_ids (add_relations x seen R ids) z =
  get_relates_to_ids R z ++ (if z =? x then added_ids x seen ids else []).
Proof.
  revert seen R. induction ids as [|rid rest IH]; intros seen R; simpl.
  - destruct (z =? x); by rewrite app_nil_r.
  - destruct (rid =? x); [apply IH|]. destruct (mem rid seen); [apply IH|].
    rewrite IH, get_rel_app, <- app_assoc. f_equal.
    unfold get_relates_to_ids at 1. simpl. rewrite Nat.eqb_sym.
    destruct (z =? x); done.
Qed.

Lemma added_ids_spec x seen ids :
  NoDup (added_ids x seen ids) /\
  (forall y, In y (added_ids x seen ids) <-> In y ids /\ y <> x /\ ~ In y seen).
Proof.
  revert seen. induction ids as [|rid rest IH]; intros seen; simpl.
  - split; [constructor|]. intros y. tauto.
  - destruct (Nat.eqb_spec rid x) as [->|Hx].
    + destruct (IH seen) as [Hn Hi]. split; [done|]. intros y. rewrite Hi.
      split; [tauto|]. intros ([<-|?] & ? & ?); [done|tauto].
    + destruct (mem rid seen) eqn:Hm.
      * apply mem_In in Hm. destruct (IH seen) as [Hn Hi]. split; [done|].
        intros y. rewrite Hi. split; [tauto|]. intros ([<-|?] & ? & ?); [done|tauto].
      * assert (Hs : ~ In rid seen) by (intros H; apply mem_In in H; congruence).
        destruct (IH (rid :: seen)) as [Hn Hi]. split.
        -- constructor; [|done]. intros H. apply list_elem_of_In, Hi in H.
           destruct H as (_ & _ & H). apply H. by left.
        -- intros y. simpl. rewrite Hi. simpl. split.
           ++ intros [<-|(? & ? & ?)]; [tauto|]. tauto.
           ++ intros ([<-|?] & ? & ?); [by left|].
              destruct (Nat.eq_dec rid y); [by left|]. right. intuition.
Qed.

Lemma set_relates_get R x ids z :
  get_relates_to_ids (set_relates_to_ids R x ids) z =
  if z =? x then added_ids x [] (match ids with Some l => l | None => [] end)
  else get_relates_to_ids R z.
Proof.
  unfold set_relates_to_ids. rewrite add_relations_get.
  unfold get_relates_to_ids at 1. rewrite filter_filter_and.
  destruct (Nat.eqb_spec z x) as [->|Hne].
  - rewrite filter_none; [done|]. intros r _. destruct (Nat.eqb_spec (rel_todo_id r) x); done.
  - rewrite app_nil_r. unfold get_relates_to_ids. f_equal. apply filter_ext.
    intros r. destruct (Nat.eqb_spec (rel_todo_id r) z) as [->|]; simpl; [|apply andb_false_r].
    by replace (z =? x) with false by (symmetry; by apply Nat.eqb_neq).
Qed.

(** X18: after [set_relates_to_ids R x ids], [get_relates_to_ids x] lists
    each id of [ids] other than [x] itself exactly once, and nothing else;
    the links of every other todo are left as they were. *)
Theorem set_get_relates_to s_ids R x :
  NoDup (get_relates_to_ids (set_relates_to_ids R x s_ids) x) /\
  (forall y, In y (get_relates_to_ids (set_relates_to_ids R x s_ids) x) <->
             In y (match s_ids with Some l => l | None => [] end) /\ y <> x) /\
  (forall z, z <> x ->
     get_relates_to_ids (set_relates_to_ids R x s_ids) z = get_relates_to_ids R z).
Proof.
  rewrite (set_relates_get R x s_ids x), Nat.eqb_refl.
  destruct (added_ids_spec x [] (match s_ids with Some l => l | None => [] end)) as [Hn Hi].
  split; [done|]. split.
  - intros y. rewrite Hi. simpl. tauto.
  - intros z Hz. rewrite set_relates_get. by replace (z =? x) with false by (symmetry; by apply Nat.eqb_neq).
Qed.

(** X19: [set_relates_to_ids] is idempotent: calling it again with the
    same ids leaves every todo's relates-to list as after the first call. *)
Theorem set_relates_to_idempotent R x ids z :
  get_relates_to_ids (set_relates_to_ids (set_relates_to_ids R x ids) x ids) z =
  get_relates_to_ids (set_relates_to_ids R x ids) z.
Proof.
  rewrite !set_relates_get. by destruct (z =? x).
Qed.

(* ------------------------------------------------------------------ *)
(** ** The schema validators *)

Lemma drop_space_snoc l c :
  is_space c = false -> drop_space (l ++ [c]) = drop_space l ++ [c].
Proof.
  intros Hc. induction l as [|a l IH]; simpl; [by rewrite Hc|].
  destruct (is_space a); [exact IH|done].
Qed.

Lemma drop_space_idem l : drop_space (drop_space l) = drop_space l.
Proof. induction l as [|a l IH]; simpl; [done|]. destruct (is_space a) eqn:E; [done|]. simpl. by rewrite E. Qed.

Lemma drop_space_head l : match drop_space l with [] => True | c :: _ => is_space c = false end.
Proof. induction l as [|a l IH]; simpl; [done|]. destruct (is_space a) eqn:E; done. Qed.

Lemma drop_space_fixed l : match l with [] => True | c :: _ => is_space c = false end ->
  drop_space l = l.
Proof. destruct l as [|c l]; simpl; [done|]. by intros ->. Qed.

Lemma strip_list v :
  String.list_ascii_of_string (strip v) =
  rev (drop_space (rev (drop_space (String.list_ascii_of_string v)))).
Proof. unfold strip. apply String.list_ascii_of_string_of_list_ascii. Qed.

Lemma strip_idem v : strip (strip v) = strip v.
Proof.
  unfold strip at 1. rewrite strip_list.
  set (l1 := drop_space (String.list_ascii_of_string v)).
  assert (H1 : match l1 with [] => True | c :: _ => is_space c = false end) by apply drop_space_head.
  assert (E : drop_space (rev (drop_space (rev l1))) = rev (drop_space (rev l1))).
  { apply drop_space_fixed. destruct l1 as [|c r]; [done|]. simpl rev.
    rewrite (drop_space_snoc _ _ H1), rev_app_distr. done. }
  rewrite E, rev_involutive, drop_space_idem. unfold strip. by fold l1.
Qed.

Lemma upper_strip_cases v :
  existsb (String.eqb (upper (strip v))) ["A"; "B"; "C"; "D"; "E"] = true ->
  upper (strip v) = "A" \/ upper (strip v) = "B" \/ upper (strip v) = "C" \/
  upper (strip v) = "D" \/ upper (strip v) = "E".
Proof.
  set (u := upper (strip v)). simpl existsb.
  destruct (String.eqb_spec u "A"); [auto|]. destruct (String.eqb_spec u "B"); [auto|].
  destruct (String.eqb_spec u "C"); [auto|]. destruct (String.eqb_spec u "D"); [auto|].
  destruct (String.eqb_spec u "E"); [auto|]. discriminate.
Qed.

(** X20: [_normalize_priority_class] stores either nothing or one of the
    letters A-E, and a stored letter passes the validator again unchanged:
    validating a stored value is a no-op. *)
Theorem priority_class_normal v c :
  normalize_priority_class v = Accepted (Some c) ->
  In c ["A"; "B"; "C"; "D"; "E"] /\ normalize_priority_class (PyStr c) = Accepted (Some c).
Proof.
  destruct v as [|w|]; [discriminate| |discriminate]. unfold normalize_priority_class at 1.
  destruct (String.eqb (upper (strip w)) "") eqn:E0; [discriminate|].
  destruct (existsb (String.eqb (upper (strip w))) ["A"; "B"; "C"; "D"; "E"]) eqn:E;
    [|discriminate]. intros H. injection H as <-.
  apply upper_strip_cases in E.
  destruct E as [-> | [-> | [-> | [-> | ->]]]]; (split; [simpl; tauto|reflexivity]).
Qed.

Lemma priority_class_normal_witness :
  normalize_priority_class (PyStr " b ") = Accepted (Some "B") /\
  In "B" ["A"; "B"; "C"; "D"; "E"] /\ normalize_priority_class (PyStr "B") = Accepted (Some "B").
Proof.
  split; [reflexivity|]. apply (priority_class_normal (PyStr " b ") "B"). reflexivity.
Defined.

(** X21: [_normalize_note_category] never stores an empty category, and a
    stored category passes the validator again unchanged ([str.strip] is
    idempotent). *)
Theorem note_category_normal v c :
  normalize_note_category v = Accepted (Some c) ->
  c <> "" /\ strip c = c /\ normalize_note_category (PyStr c) = Accepted (Some c).
Proof.
  destruct v as [|w|]; simpl; [discriminate| |discriminate].
  destruct (String.eqb (strip w) "") eqn:E0; [discriminate|]. intros H. injection H as <-.
  assert (Hs : strip (strip w) = strip w) by apply strip_idem.
  split; [intros E; rewrite E in E0; discriminate E0|]. split; [done|].
  by rewrite Hs, E0.
Qed.

Lemma note_category_normal_witness :
  normalize_note_category (PyStr "  research ") = Accepted (Some "research") /\
  "research" <> "" /\ strip "research" = "research" /\
  normalize_note_category (PyStr "research") = Accepted (Some "research").
Proof.
  split; [reflexivity|]. apply (note_category_normal (PyStr "  research ")). reflexivity.
Defined.

(** X22: the title [add_concern] stores always starts with "[Concern]",
    and a title already starting with it is kept as it is (so the rule is
    idempotent). *)
Theorem concern_title_prefixed title :
  String.prefix "[Concern]" (concern_title title) = true /\
  concern_title (concern_title title) = concern_title title.
Proof.
  unfold concern_title.
  destruct (String.prefix "[Concern]" title) eqn:E; [by rewrite E|].
  assert (P : String.prefix "[Concern]" ("[Concern] " +:+ title) = true) by reflexivity.
  by rewrite P.
Qed.

(* ------------------------------------------------------------------ *)
(** ** Searching *)

Definition no_filter : TodoSearch := mkSearch None None None None None.

Lemma existsb_get s y :
  ids_unique s ->
  existsb (fun u => (id u =? y) && negb (status_eqb (status u) COMPLETED)) (todos s) =
  match get_todo s y with Some u => negb (status_eqb (status u) COMPLETED) | None => false end.
Proof.
  intros Hu. destruct (get_todo s y) as [u|] eqn:Hg.
  - destruct (get_todo_spec s y u Hg) as [Hin Hid].
    destruct (negb (status_eqb (status u) COMPLETED)) eqn:Hc.
    + apply existsb_exists. exists u. rewrite Hid, Nat.eqb_refl, Hc. done.
    + apply not_true_iff_false. rewrite existsb_exists. intros (u' & Hin' & Hk).
      apply andb_true_iff in Hk as [Hk1 Hk2]. apply Nat.eqb_eq in Hk1.
      assert (u' = u) as -> by (apply (ids_inj (todos s)); auto; congruence). congruence.
  - apply not_true_iff_false. rewrite existsb_exists. intros (u' & Hin' & Hk).
    apply andb_true_iff in Hk as [Hk1 _].
    pose proof (find_none _ _ Hg u' Hin') as Hn. simpl in Hn. congruence.
Qed.

Lemma unmet_check s t :
  ids_unique s -> unmet_dep_exists s t = negb (check_dependencies_met s (id t)).
Proof.
  intros Hu. rewrite check_forallb. unfold unmet_dep_exists, get_dependencies.
  induction (todo_dependencies s) as [|d E IH]; [done|]. simpl.
  destruct (todo_id d =? id t); simpl; [|exact IH].
  rewrite existsb_get by done. rewrite IH, negb_andb.
  by destruct (get_todo s (depends_on_id d)).
Qed.

(** X23: on a store with unique ids, the "ready" filter of [search_todos]
    keeps exactly the rows [check_dependencies_met] reports ready, and the
    "blocked" filter exactly the others: the SQL subquery and the Python
    loop agree. *)
Theorem search_dependency_status s t :
  ids_unique s -> In t (todos s) ->
  (In t (search_todos s (mkSearch None None None None (Some "ready")))
     <-> check_dependencies_met s (id t) = true) /\
  (In t (search_todos s (mkSearch None None None None (Some "blocked")))
     <-> check_dependencies_met s (id t) = false).
Proof.
  intros Hu Ht. unfold search_todos. rewrite !filter_In. cbn -[unmet_dep_exists].
  rewrite unmet_check by done.
  destruct (check_dependencies_met s (id t)); simpl; intuition congruence.
Qed.

Lemma search_dependency_status_witness :
  let s := mkStore [mk 1 PENDING 0; mk 2 PENDING 0] [mkDep 1 2 1] in
  (In (mk 2 PENDING 0) (search_todos s (mkSearch None None None None (Some "ready")))
     <-> check_dependencies_met s (id (mk 2 PENDING 0)) = true) /\
  (In (mk 2 PENDING 0) (search_todos s (mkSearch None None None None (Some "blocked")))
     <-> check_dependencies_met s (id (mk 2 PENDING 0)) = false).
Proof.
  intros s. apply (search_dependency_status s (mk 2 PENDING 0)).
  - apply (bool_decide_unpack _). vm_compute. exact I.
  - simpl. auto.
Defined.

(** X24: [search_todos] with [in_queue=true] returns the rows of
    [get_queued_todos] (in row order), and, when every row with a status
    outside the queue holds queue 0, [in_queue=false] returns exactly the
    other rows: each row is found by exactly one of the two searches. *)
Theorem search_in_queue_partition s :
  search_todos s (mkSearch None None (Some true) None None) ≡ₚ get_queued_todos s /\
  (inactive_unqueued s -> forall t, In t (todos s) ->
     (In t (search_todos s (mkSearch None None (Some true) None None)) <->
      ~ In t (search_todos s (mkSearch None None (Some false) None None)))).
Proof.
  split.
  - rewrite queued_perm. unfold search_todos. cbn.
    apply Permutation_refl'. apply filter_ext. intros t. by rewrite !andb_true_r.
  - intros Hi t Ht. unfold search_todos. rewrite !filter_In. cbn. rewrite !andb_true_r.
    unfold inactive_unqueued in Hi. rewrite Forall_forall in Hi.
    specialize (Hi t (proj2 (list_elem_of_In _ _) Ht)).
    unfold in_queue. destruct (is_queue_relevant (status t)); simpl.
    + destruct (queue t) as [|q]; cbv [Nat.ltb]; simpl; intuition congruence.
    + rewrite (Hi eq_refl). simpl. intuition congruence.
Qed.

Lemma search_in_queue_partition_witness :
  search_todos abc (mkSearch None None (Some true) None None) ≡ₚ get_queued_todos abc /\
  (inactive_unqueued abc -> forall t, In t (todos abc) ->
     (In t (search_todos abc (mkSearch None None (Some true) None None)) <->
      ~ In t (search_todos abc (mkSearch None None (Some false) None None)))).
Proof. apply (search_in_queue_partition abc). Defined.

Lemma map_filter_key {B} (f : Todo -> B) (g : Todo -> bool) (h : B -> bool) l :
  map f (List.filter (fun t => g t && h (f t)) l) = List.filter h (map f (List.filter g l)).
Proof.
  induction l as [|a l IH]; simpl; [done|].
  destruct (g a); simpl; [destruct (h (f a)); simpl|]; by rewrite IH.
Qed.

Lemma filter_eq_in (l : list nat) k :
  NoDup l -> In k l -> List.filter (Nat.eqb k) l = [k].
Proof.
  induction l as [|a l IH]; intros Hnd Hk; [done|]. simpl.
  inversion Hnd as [|? ? Ha Hl]; subst.
  destruct (Nat.eqb_spec k a) as [->|Hne].
  - f_equal. apply filter_none. intros b Hb. apply Nat.eqb_neq. intros ->.
    apply Ha. by apply list_elem_of_In.
  - apply IH; [done|]. destruct Hk as [->|Hk]; done.
Qed.

Lemma filter_eq_out (l : list nat) k :
  ~ In k l -> List.filter (Nat.eqb k) l = [].
Proof.
  intros Hk. apply filter_none. intros b Hb. apply Nat.eqb_neq. intros ->. done.
Qed.

(** X25: on a store whose queue is contiguous, [search_todos] with
    [queue=k] for [1 <= k <= N] finds exactly one row, a queued row at
    position [k], and for [k > N] finds none. *)
Theorem search_queue_position s k :
  contiguous s -> 1 <= k ->
  (k <= length (qvals (todos s)) ->
     exists u, search_todos s (mkSearch None None None (Some k) None) = [u] /\
       In u (todos s) /\ in_queue u = true /\ queue u = k) /\
  (length (qvals (todos s)) < k -> search_todos s (mkSearch None None None (Some k) None) = []).
Proof.
  intros Hc Hk.
  set (R := search_todos s (mkSearch None None None (Some k) None)).
  assert (HR : R = List.filter (fun t => in_queue t && (k =? queue t)) (todos s)).
  { subst R. unfold search_todos. cbn. apply filter_ext. intros t.
    rewrite !andb_true_r. unfold in_queue.
    rewrite (Nat.eqb_sym (queue t) k). destruct (Nat.eqb_spec k (queue t)) as [<-|]; [|simpl; rewrite andb_false_r; reflexivity].
    replace (0 <? k) with true by (symmetry; apply Nat.ltb_lt; lia).
    by destruct (is_queue_relevant (status t)). }
  assert (Hm : map queue R ≡ₚ List.filter (Nat.eqb k) (seq 1 (length (qvals (todos s))))).
  { rewrite HR, (map_filter_key queue in_queue (Nat.eqb k)). apply perm_filterb, Hc. }
  split.
  - intros HN. rewrite filter_eq_in in Hm; [|apply NoDup_seq|apply in_seq; lia].
    symmetry in Hm. apply Permutation_length_1_inv in Hm.
    destruct R as [|u [|v R']] eqn:E; try discriminate Hm.
    injection Hm as Hq. exists u. split; [done|].
    assert (Hu : In u [u]) by (by left). rewrite HR, filter_In in Hu.
    destruct Hu as [Hu Hk']. apply andb_true_iff in Hk' as [Hq' _]. done.
  - intros HN. rewrite filter_eq_out in Hm; [|rewrite in_seq; lia].
    symmetry in Hm. apply Permutation_nil in Hm. by destruct R.
Qed.

Lemma search_queue_position_witness :
  (2 <= length (qvals (todos abc)) ->
     exists u, search_todos abc (mkSearch None None None (Some 2) None) = [u] /\
       In u (todos abc) /\ in_queue u = true /\ queue u = 2) /\
  (length (qvals (todos abc)) < 2 -> search_todos abc (mkSearch None None None (Some 2) None) = []).
Proof.
  apply (search_queue_position abc 2); [unfold contiguous; vm_compute; reflexivity|lia].
Defined.

(* ------------------------------------------------------------------ *)
(** ** Deleting a row and its subtree *)

Global Instance Todo_eq_dec : EqDecision Todo.
Proof. solve_decision. Defined.

(** [cs] lists rows [c1, ..., ck] with [c1.parent_id = x] and
    [c(i+1).parent_id = ci.id], ending at the id [y]. *)
Fixpoint chain (x : nat) (cs : list Todo) (y : nat) : Prop :=
  match cs with
  | [] => y = x
  | c :: cs' => parent_id c = Some x /\ chain (id c) cs' y
  end.

(** [y] is [x] or lies below [x] along [parent_id] links of rows of [l]. *)
Definition descendant (l : list Todo) (x y : nat) : Prop :=
  exists cs, Forall (fun c => In c l) cs /\ chain x cs y.

Lemma subtree_iff f l x y :
  In y (subtree f l x) <->
  exists cs, length cs <= f /\ Forall (fun c => In c l) cs /\ chain x cs y.
Proof.
  revert x. induction f as [|f IH]; intros x; simpl.
  - split.
    + intros [<-|[]]. exists []. simpl. auto.
    + intros ([|c cs] & Hl & _ & Hc); [left; done|simpl in Hl; lia].
  - rewrite in_concat. split.
    + intros [<-|(ys & Hys & Hy)]; [exists []; simpl; split; [lia|auto]|].
      apply in_map_iff in Hys as (c & <- & Hc). apply filter_In in Hc as [Hc Hp].
      apply bool_decide_eq_true in Hp. apply IH in Hy as (cs & Hl & Hf & Hch).
      exists (c :: cs). simpl. split; [lia|]. split; [by constructor|]. done.
    + intros ([|c cs] & Hl & Hf & Hch); [left; done|right].
      simpl in Hl, Hch. destruct Hch as [Hp Hch]. inversion Hf as [|? ? Hc Hf']; subst.
      exists (subtree f l (id c)). split.
      * apply in_map_iff. exists c. split; [done|]. apply filter_In. split; [done|].
        by apply bool_decide_eq_true.
      * apply IH. exists cs. split; [lia|]. done.
Qed.

Lemma chain_app x p q y : chain x (p ++ q) y <-> exists m, chain x p m /\ chain m q y.
Proof.
  revert x. induction p as [|c p IH]; intros x; simpl.
  - split; [eauto|]. by intros (m & -> & H).
  - rewrite IH. split.
    + intros (Hp & m & H1 & H2). eauto.
    + intros (m & [Hp H1] & H2). eauto.
Qed.

Lemma not_NoDup_split (l : list Todo) :
  ~ List.NoDup l -> exists a c b e, l = a ++ c :: b ++ c :: e.
Proof.
  induction l as [|c l IH]; intros Hn; [exfalso; apply Hn; constructor|].
  destruct (decide (c ∈ l)) as [Hin|Hin].
  - apply list_elem_of_split in Hin as (b & e & ->). exists [], c, b, e. done.
  - assert (Hl : ~ List.NoDup l).
    { intros Hl. apply Hn. constructor; [|done]. intros H. apply Hin. by apply list_elem_of_In. }
    destruct (IH Hl) as (a & c' & b & e & ->). exists (c :: a), c', b, e. done.
Qed.

Lemma chain_shorten l x y cs :
  Forall (fun c => In c l) cs -> chain x cs y ->
  exists cs', length cs' <= length l /\ Forall (fun c => In c l) cs' /\ chain x cs' y.
Proof.
  remember (length cs) as n eqn:En. revert cs En.
  induction n as [n IHn] using lt_wf_ind. intros cs En Hf Hc.
  assert (IH : forall cs', length cs' < length cs -> Forall (fun c => In c l) cs' ->
                 chain x cs' y ->
                 exists cs'', length cs'' <= length l /\ Forall (fun c => In c l) cs'' /\ chain x cs'' y)
    by (intros cs' Hlt; apply (IHn (length cs')); [lia|done]).
  clear IHn. destruct (decide (NoDup cs)) as [Hn|Hn]; rewrite NoDup_ListNoDup in Hn.
  - exists cs. split; [|done]. apply NoDup_incl_length; [done|].
    intros c Hc'. rewrite Forall_forall in Hf. apply Hf. by apply list_elem_of_In.
  - destruct (not_NoDup_split cs Hn) as (a & c & b & e & ->).
    apply (IH (a ++ c :: e)).
    + rewrite !length_app. simpl. rewrite length_app. simpl. lia.
    + apply Forall_app in Hf as [Ha Hf]. apply Forall_cons in Hf as [Hc' Hf].
      apply Forall_app in Hf as [_ Hf]. apply Forall_cons in Hf as [_ He].
      apply Forall_app. split; [done|]. by constructor.
    + apply chain_app in Hc as (m & Ha & Hc). apply chain_app. exists m. split; [done|].
      simpl in Hc. destruct Hc as [Hp Hc]. apply chain_app in Hc as (m' & Hb & Hc).
      simpl in Hc. destruct Hc as [_ He]. simpl. done.
Qed.

Lemma subtree_descendant l x y :
  In y (subtree (length l) l x) <-> descendant l x y.
Proof.
  rewrite subtree_iff. split.
  - intros (cs & _ & Hf & Hc). by exists cs.
  - intros (cs & Hf & Hc). by apply (chain_shorten l x y cs).
Qed.

(** X26: [delete_todo] on a missing id returns false and changes nothing;
    on an existing id it returns true and removes exactly the row, its
    descendants along [parent_id] (the [children] cascade), and the
    dependency rows whose [todo_id] is one of them; every other row and
    edge stays. *)
Theorem delete_todo_cascade s x :
  (get_todo s x = None -> delete_todo s x = (s, false)) /\
  (get_todo s x <> None ->
   snd (delete_todo s x) = true /\
   (forall r, In r (todos (fst (delete_todo s x))) <->
              In r (todos s) /\ ~ descendant (todos s) x (id r)) /\
   (forall d, In d (todo_dependencies (fst (delete_todo s x))) <->
              In d (todo_dependencies s) /\ ~ descendant (todos s) x (todo_id d))).
Proof.
  unfold delete_todo. split; [by intros ->|].
  intros Hx. destruct (get_todo s x) as [t|]; [|done]. simpl.
  split; [done|]. split.
  - intros r. rewrite filter_In, negb_true_iff, <- subtree_descendant, <- mem_In.
    by rewrite not_true_iff_false.
  - intros d. rewrite filter_In, negb_true_iff, <- subtree_descendant, <- mem_In.
    by rewrite not_true_iff_false.
Qed.

Lemma delete_todo_cascade_witness :
  let s := mkStore [mkTodo 1 PENDING 0 None 0; mkTodo 2 PENDING 0 (Some 1) 0;
                    mkTodo 3 PENDING 0 (Some 2) 0; mkTodo 4 PENDING 0 None 0]
                   [mkDep 1 3 4; mkDep 2 4 3] in
  (get_todo s 1 = None -> delete_todo s 1 = (s, false)) /\
  (get_todo s 1 <> None ->
   snd (delete_todo s 1) = true /\
   (forall r, In r (todos (fst (delete_todo s 1))) <->
              In r (todos s) /\ ~ descendant (todos s) 1 (id r)) /\
   (forall d, In d (todo_dependencies (fst (delete_todo s 1))) <->
              In d (todo_dependencies s) /\ ~ descendant (todos s) 1 (todo_id d))).
Proof. intros s. apply (delete_todo_cascade s 1). Defined.

(* ------------------------------------------------------------------ *)
(** ** Notes *)

(** A stored note: its type follows its [todo_id], and its category is
    set and not blank. *)
Definition note_ok (n : Note) : Prop :=
  note_type n = type_of_todo_id (note_todo_id n) /\
  exists c, category n = Some c /\ strip c <> "".

Lemma general_ok : strip "general" <> "".
Proof. discriminate. Qed.

Lemma fixed_category (v : option string) :
  let v' := if String.eqb (strip (or_empty v)) "" then Some "general" else v in
  exists c, v' = Some c /\ strip c <> "".
Proof.
  cbv zeta. destruct (String.eqb_spec (strip (or_empty v)) "") as [_|Hn].
  - exists "general". split; [done|]. apply general_ok.
  - destruct v as [c|]; [|done]. by exists c.
Qed.

(** X27: [create_note] stores and returns a note whose type is "attached"
    exactly when it has a [todo_id], whose category is the stripped given
    one or "general" when that is blank, and whose id no note holds yet;
    the notes already stored are kept. *)
Theorem create_note_ok ns c :
  note_ok (snd (create_note ns c)) /\
  fst (create_note ns c) = ns ++ [snd (create_note ns c)] /\
  ~ In (note_id (snd (create_note ns c))) (map note_id ns) /\
  (String.eqb (strip (or_empty (nc_category c))) "" = true ->
     category (snd (create_note ns c)) = Some "general") /\
  (String.eqb (strip (or_empty (nc_category c))) "" = false ->
     category (snd (create_note ns c)) = Some (strip (or_empty (nc_category c)))).
Proof.
  unfold create_note. cbn [fst snd note_type note_todo_id category note_id].
  destruct (String.eqb (strip (or_empty (nc_category c))) "") eqn:E.
  - split; [split; [done|exists "general"; split; [done|apply general_ok]]|].
    split; [done|]. split; [|split; [done|discriminate]].
    unfold next_note_id. intros H. apply foldr_max_ge in H. lia.
  - split.
    + split; [done|]. eexists. split; [done|]. rewrite strip_idem.
      intros H. rewrite H in E. discriminate E.
    + split; [done|]. split; [|split; [discriminate|done]].
      unfold next_note_id. intros H. apply foldr_max_ge in H. lia.
Qed.

Lemma create_note_ok_witness :
  note_ok (snd (create_note [] (mkNoteCreate (Some 1) (Some "  ")))) /\
  fst (create_note [] (mkNoteCreate (Some 1) (Some "  ")))
    = [] ++ [snd (create_note [] (mkNoteCreate (Some 1) (Some "  ")))] /\
  ~ In (note_id (snd (create_note [] (mkNoteCreate (Some 1) (Some "  "))))) (map note_id []) /\
  (String.eqb (strip (or_empty (nc_category (mkNoteCreate (Some 1) (Some "  "))))) "" = true ->
     category (snd (create_note [] (mkNoteCreate (Some 1) (Some "  ")))) = Some "general") /\
  (String.eqb (strip (or_empty (nc_category (mkNoteCreate (Some 1) (Some "  "))))) "" = false ->
     category (snd (create_note [] (mkNoteCreate (Some 1) (Some "  "))))
       = Some (strip (or_empty (nc_category (mkNoteCreate (Some 1) (Some "  ")))))).
Proof. apply (create_note_ok [] (mkNoteCreate (Some 1) (Some "  "))). Defined.

(** X28: [update_note] on a missing id returns [None] and changes nothing;
    on an existing id it returns a note satisfying the same rule as a
    created one (type from [todo_id], non-blank category), whatever the
    update sets, keeps the note's id, and so keeps every stored note
    well-formed when they all were. *)
Theorem update_note_ok ns i u :
  (List.find (fun n => note_id n =? i) ns = None -> update_note ns i u = (ns, None)) /\
  (forall n', snd (update_note ns i u) = Some n' -> note_ok n' /\ note_id n' = i) /\
  (Forall note_ok ns -> Forall note_ok (fst (update_note ns i u))).
Proof.
  unfold update_note. split; [by intros ->|].
  destruct (List.find _ ns) as [n|] eqn:Hf; [|split; [discriminate|done]].
  apply find_some in Hf as [_ Hi]. apply Nat.eqb_eq in Hi.
  set (tid := match nu_todo_id u with Some v => v | None => note_todo_id n end).
  set (cat := match nu_category u with Some v => v | None => category n end).
  assert (Hok : note_ok (mkNote (note_id n) tid (type_of_todo_id tid)
                  (if String.eqb (strip (or_empty cat)) "" then Some "general" else cat))).
  { split; [done|]. apply (fixed_category cat). }
  split.
  - intros n' Hn. injection Hn as <-. by split.
  - intros Hall. simpl. apply Forall_forall. intros m Hm.
    apply list_elem_of_In, in_map_iff in Hm as (m0 & <- & Hm0).
    destruct (note_id m0 =? i); [done|].
    rewrite Forall_forall in Hall. apply Hall. by apply list_elem_of_In.
Qed.

Lemma update_note_ok_witness :
  let ns := [mkNote 1 (Some 4) ATTACHED (Some "research")] in
  (List.find (fun n => note_id n =? 1) ns = None -> update_note ns 1 (mkNoteUpdate (Some None) (Some None)) = (ns, None)) /\
  (forall n', snd (update_note ns 1 (mkNoteUpdate (Some None) (Some None))) = Some n' ->
     note_ok n' /\ note_id n' = 1) /\
  (Forall note_ok ns -> Forall note_ok (fst (update_note ns 1 (mkNoteUpdate (Some None) (Some None))))).
Proof. intros ns. apply (update_note_ok ns 1 (mkNoteUpdate (Some None) (Some None))). Defined.

(* ------------------------------------------------------------------ *)
(** ** Paging *)

(** X29: the pages of [get_todos] fit together: the page at [skip] of
    [a] rows followed by the page at [skip + a] of [b] rows is the page at
    [skip] of [a + b] rows, so paging through the table lists every row
    once, in table order; a page is never longer than [limit]. *)
Theorem get_todos_pages s skip a b :
  get_todos s skip a ++ get_todos s (skip + a) b = get_todos s skip (a + b) /\
  length (get_todos s skip a) <= a.
Proof.
  unfold get_todos. split; [|rewrite length_firstn; lia].
  rewrite <- (Nat.add_comm a skip), <- skipn_skipn.
  generalize (skipn skip (todos s)) as l. revert b. induction a as [|a IH]; intros b l; [done|].
  destruct l as [|x l]; simpl; [by destruct b|]. f_equal. apply IH.
Qed.
